(** * Custom hooks of the React learning hub

    A shallow embedding of the reusable stateful primitives declared in
    the custom-hooks demo page ([useCounter], [useLocalStorage], [useApi],
    [usePrevious], [useToggle], [useDebounce], [useForm]) together with the
    part of the host runtime they rely on: state cells with an update queue,
    effects that run after a render commits, [try]/[catch]/[finally],
    timers and the key-value store. *)

From Stdlib Require Import ZArith NArith List String Ascii Bool Lia DecimalString.
From stdpp Require Import base option gmap strings list.
Import ListNotations.

Local Open Scope list_scope.

(** ** The host runtime: state cells *)

Module Host.

(** The argument of a state setter: [setCount(5)] or
    [setCount(prev => prev + 1)]. *)
Inductive SetStateAction (T : Type) : Type :=
| Literal (v : T)
| Updater (f : T -> T).
Arguments Literal {T} v.
Arguments Updater {T} f.

(** What [useState] keeps for one hook call: the value every closure of
    the current render sees, and the actions queued since that render. *)
Record StateCell (T : Type) : Type := mkCell {
  value : T;
  queue : list (SetStateAction T)
}.
Arguments mkCell {T} value queue.
Arguments value {T} s.
Arguments queue {T} s.

Section Cell.
Context {T : Type}.

(** [useState(initial)] on the first render. *)
Definition useState (initial : T) : StateCell T := mkCell initial [].

(** The first component of the pair [useState] returns. *)
Definition read (c : StateCell T) : T := value c.

(** The setter: the action is queued, the rendered value stays. *)
Definition write (a : SetStateAction T) (c : StateCell T) : StateCell T :=
  mkCell (value c) (queue c ++ [a]).

Definition resolve (prev : T) (a : SetStateAction T) : T :=
  match a with
  | Literal v => v
  | Updater f => f prev
  end.

(** The value the queued actions produce, in the order of the calls. *)
Definition pending (c : StateCell T) : T :=
  fold_left resolve (queue c) (value c).

(** The next render: the queue is processed and emptied. *)
Definition rerender (c : StateCell T) : StateCell T :=
  mkCell (pending c) [].

Definition writes (acts : list (SetStateAction T)) (c : StateCell T)
  : StateCell T :=
  fold_left (fun c a => write a c) acts c.

End Cell.

(** ** Thrown values and [try]/[catch]/[finally] *)

(** A value that was thrown: an [Error] object carries a message; anything
    else fails the [instanceof Error] test. *)
Inductive thrown : Type :=
| ErrorObject (message : string)
| NotAnError.

Inductive completion (A : Type) : Type :=
| Normal (a : A)
| Abrupt (e : thrown).
Arguments Normal {A} a.
Arguments Abrupt {A} e.

(** A block of statements over a store [S]: writes made before a throw
    stay in the store. *)
Definition block (S A : Type) : Type := S -> completion A * S.

Section Block.
Context {S : Type}.

Definition ret {A} (a : A) : block S A := fun s => (Normal a, s).

Definition throw {A} (e : thrown) : block S A := fun s => (Abrupt e, s).

Definition bind {A B} (m : block S A) (k : A -> block S B) : block S B :=
  fun s =>
    match m s with
    | (Normal a, s') => k a s'
    | (Abrupt e, s') => (Abrupt e, s')
    end.

Definition modify (f : S -> S) : block S unit := fun s => (Normal tt, f s).

(** The outcome of an operation of the environment. *)
Definition lift {A} (r : completion A) : block S A := fun s => (r, s).

Definition try_catch {A} (body : block S A) (handler : thrown -> block S A)
  : block S A :=
  fun s =>
    match body s with
    | (Normal a, s') => (Normal a, s')
    | (Abrupt e, s') => handler e s'
    end.

Definition try_finally {A} (body : block S A) (final : block S unit)
  : block S A :=
  fun s =>
    match body s with
    | (r, s') =>
        match final s' with
        | (Normal _, s'') => (r, s'')
        | (Abrupt e, s'') => (Abrupt e, s'')
        end
    end.

End Block.

(** The block ends without an exception reaching its caller. *)
Definition returns {S A} (m : block S A) (s : S) : Prop :=
  exists a, fst (m s) = Normal a.

End Host.

Import Host.

Declare Scope block_scope.
Delimit Scope block_scope with block.
Notation "'let*' x ':=' m 'in' k" := (bind m (fun x => k))
  (at level 10, x name, m at level 100, k at level 200) : block_scope.
Notation "m ';;;' k" := (bind m (fun _ => k))
  (at level 100, k at level 200, right associativity) : block_scope.

(** ** 1. useCounter *)

Module useCounter.

(** The count is a whole number, far from the size where the numbers of the
    language stop being exact. *)
Definition useCounter (initialValue : Z) : StateCell Z := useState initialValue.

(** The three callbacks the hook returns; [reset] closes over the
    [initialValue] of its render. *)
Definition increment (count : StateCell Z) : StateCell Z :=
  write (Updater (fun prevCount => prevCount + 1)%Z) count.

Definition decrement (count : StateCell Z) : StateCell Z :=
  write (Updater (fun prevCount => prevCount - 1)%Z) count.

Definition reset (initialValue : Z) (count : StateCell Z) : StateCell Z :=
  write (Literal initialValue) count.

Inductive mutator : Type := Increment | Decrement | Reset.

Definition call (initialValue : Z) (m : mutator) : StateCell Z -> StateCell Z :=
  match m with
  | Increment => increment
  | Decrement => decrement
  | Reset => reset initialValue
  end.

(** What each mutator does to the count it finds. *)
Definition effect (initialValue : Z) (m : mutator) (prev : Z) : Z :=
  match m with
  | Increment => prev + 1
  | Decrement => prev - 1
  | Reset => initialValue
  end%Z.

Definition calls (initialValue : Z) (ms : list mutator) (count : StateCell Z)
  : StateCell Z :=
  fold_left (fun c m => call initialValue m c) ms count.

End useCounter.

(** ** 6. useToggle *)

Module useToggle.

Definition useToggle (initialValue : bool) : StateCell bool :=
  useState initialValue.

Definition toggle (value : StateCell bool) : StateCell bool :=
  write (Updater (fun prevValue => negb prevValue)) value.

Definition setTrue (value : StateCell bool) : StateCell bool :=
  write (Literal true) value.

Definition setFalse (value : StateCell bool) : StateCell bool :=
  write (Literal false) value.

Inductive mutator : Type := Toggle | SetTrue | SetFalse.

Definition call (m : mutator) : StateCell bool -> StateCell bool :=
  match m with
  | Toggle => toggle
  | SetTrue => setTrue
  | SetFalse => setFalse
  end.

(** The pure function of the previous value each mutator stands for. *)
Definition effect (m : mutator) (prev : bool) : bool :=
  match m with
  | Toggle => negb prev
  | SetTrue => true
  | SetFalse => false
  end.

Definition calls (ms : list mutator) (value : StateCell bool) : StateCell bool :=
  fold_left (fun c m => call m c) ms value.

(** A click: the callback runs, then the component renders again. *)
Definition click (m : mutator) (value : StateCell bool) : StateCell bool :=
  rerender (call m value).

(** The values successive renders show while the clicks [ms] arrive one
    by one, the render before the first click included. *)
Fixpoint shown (ms : list mutator) (value : StateCell bool) : list bool :=
  read value ::
  match ms with
  | [] => []
  | m :: ms' => shown ms' (click m value)
  end.

End useToggle.

(** ** 5. usePrevious *)

Module usePrevious.

Section Hook.
Context {T : Type}.

(** [useRef<T>()]: a box whose [current] starts out undefined. *)
Record Ref : Type := mkRef { current : option T }.

Definition useRef : Ref := mkRef None.

(** The body of the hook during a render: it returns what the box holds. *)
Definition usePrevious (value : T) (ref : Ref) : option T := current ref.

(** The effect, registered without a dependency list, which the host runs
    after every render it commits. *)
Definition effect (value : T) (ref : Ref) : Ref := mkRef (Some value).

(** One render pass for the argument [value]: what the hook returned, and
    the box once the effect has run. *)
Definition render (value : T) (ref : Ref) : option T * Ref :=
  (usePrevious value ref, effect value ref).

(** What the hook returns over successive renders. *)
Fixpoint renders (values : list T) (ref : Ref) : list (option T) :=
  match values with
  | [] => []
  | v :: rest =>
      let (returned, ref') := render v ref in
      returned :: renders rest ref'
  end.

End Hook.
Arguments Ref T : clear implicits.

End usePrevious.

(** ** The host runtime: JSON text of strings *)

Module JSON.

(** What [JSON.stringify] and [JSON.parse] are for the values of one type:
    [parse] is [None] where [JSON.parse] throws its [SyntaxError]. The text
    [stringify] gives is the one that reaches the store. *)
Class Json (T : Type) : Type := {
  stringify : T -> string;
  parse : string -> option T
}.

(** The values that survive the trip through their JSON text. *)
Definition faithful `{Json T} (v : T) : Prop :=
  parse (stringify v) = Some v /\ stringify v <> EmptyString.

Definition dquote : ascii := "034"%char.
Definition backslash : ascii := "092"%char.

Definition hex_digit (n : N) : ascii :=
  if (n <? 10)%N then ascii_of_N (48 + n) else ascii_of_N (87 + n).

Definition hex_value (c : ascii) : option N :=
  let n := N_of_ascii c in
  if ((48 <=? n) && (n <=? 57))%N then Some (n - 48)%N
  else if ((97 <=? n) && (n <=? 102))%N then Some (n - 87)%N
  else if ((65 <=? n) && (n <=? 70))%N then Some (n - 55)%N
  else None.

(** How [JSON.stringify] writes one character of a string. *)
Definition quote_char (c : ascii) : string :=
  let n := N_of_ascii c in
  if (n =? 34)%N then String backslash (String dquote EmptyString)
  else if (n =? 92)%N then String backslash (String backslash EmptyString)
  else if (n =? 8)%N then String backslash (String "b" EmptyString)
  else if (n =? 12)%N then String backslash (String "f" EmptyString)
  else if (n =? 10)%N then String backslash (String "n" EmptyString)
  else if (n =? 13)%N then String backslash (String "r" EmptyString)
  else if (n =? 9)%N then String backslash (String "t" EmptyString)
  else if (n <? 32)%N then
    String backslash (String "u" (String "0" (String "0"
      (String (hex_digit (n / 16)) (String (hex_digit (n mod 16)) EmptyString)))))
  else String c EmptyString.

Fixpoint quote_chars (s : string) : string :=
  match s with
  | EmptyString => EmptyString
  | String c rest => (quote_char c ++ quote_chars rest)%string
  end.

Definition stringify_string (s : string) : string :=
  String dquote (quote_chars s ++ String dquote EmptyString)%string.

(** The character a two-character escape stands for. *)
Definition simple_escape (e : ascii) : option ascii :=
  let n := N_of_ascii e in
  if (n =? 34)%N then Some dquote
  else if (n =? 92)%N then Some backslash
  else if (n =? 47)%N then Some "/"%char
  else if (n =? 98)%N then Some "008"%char
  else if (n =? 102)%N then Some "012"%char
  else if (n =? 110)%N then Some "010"%char
  else if (n =? 114)%N then Some "013"%char
  else if (n =? 116)%N then Some "009"%char
  else None.

(** The code a [\uXXXX] escape names; strings here are byte strings, so
    a code above [00ff] names a character they do not have. *)
Definition unicode_escape (a b c d : ascii) : option ascii :=
  match hex_value a, hex_value b, hex_value c, hex_value d with
  | Some x, Some y, Some z, Some w =>
      if ((x =? 0) && (y =? 0))%N then Some (ascii_of_N (16 * z + w)) else None
  | _, _, _, _ => None
  end.

(** Reads a string literal after its opening quote: the characters up to
    the closing quote, and the text after it. *)
Fixpoint unquote_chars (s : string) : option (string * string) :=
  match s with
  | EmptyString => None
  | String c rest =>
      if (N_of_ascii c =? 34)%N then Some (EmptyString, rest)
      else if (N_of_ascii c =? 92)%N then
        match rest with
        | String e rest1 =>
            if (N_of_ascii e =? 117)%N then
              match rest1 with
              | String h1 (String h2 (String h3 (String h4 rest2))) =>
                  match unicode_escape h1 h2 h3 h4, unquote_chars rest2 with
                  | Some x, Some (body, after) => Some (String x body, after)
                  | _, _ => None
                  end
              | _ => None
              end
            else
              match simple_escape e, unquote_chars rest1 with
              | Some x, Some (body, after) => Some (String x body, after)
              | _, _ => None
              end
        | EmptyString => None
        end
      else if (N_of_ascii c <? 32)%N then None
      else
        match unquote_chars rest with
        | Some (body, after) => Some (String c body, after)
        | None => None
        end
  end.

Definition is_space (c : ascii) : bool :=
  let n := N_of_ascii c in
  ((n =? 32) || (n =? 9) || (n =? 10) || (n =? 13))%N.

Fixpoint skip_spaces (s : string) : string :=
  match s with
  | String c rest => if is_space c then skip_spaces rest else s
  | EmptyString => EmptyString
  end.

Definition parse_string (text : string) : option string :=
  match skip_spaces text with
  | String c rest =>
      if (N_of_ascii c =? 34)%N then
        match unquote_chars rest with
        | Some (body, after) =>
            match skip_spaces after with
            | EmptyString => Some body
            | String _ _ => None
            end
        | None => None
        end
      else None
  | EmptyString => None
  end.

(** Strings. The texts the hook stores are string literals. A text that is
    JSON for something else than a string (a number, [null]), or that
    escapes a character beyond the bytes of [string], is no value of the
    type: [parse] gives none for it, whereas [JSON.parse] returns the
    foreign value, which the hook would show. *)
#[export] Instance json_string : Json string := {
  stringify := stringify_string;
  parse := parse_string
}.

(** Strings that may be undefined: [JSON.stringify(undefined)] is undefined,
    which [setItem] stores as the text [undefined], and [JSON.parse] throws
    on that text. *)
#[export] Instance json_optional_string : Json (option string) := {
  stringify v :=
    match v with
    | Some s => stringify_string s
    | None => "undefined"
    end;
  parse text := option_map Some (parse_string text)
}.

End JSON.

Import JSON.

(** ** 2. useLocalStorage *)

Module useLocalStorage.

(** [window.localStorage]: the items it holds, and whether the browser lets
    the page read them and write them ([getItem] and [setItem] throw when it
    does not: storage disabled, quota used up). *)
Record Storage : Type := mkStorage {
  items : gmap string string;
  readable : bool;
  writable : bool
}.

(** The part of [window] the hook touches; [console] collects the calls of
    [console.error], the message with the value that was caught. *)
Record Window : Type := mkWindow {
  localStorage : Storage;
  console : list (string * thrown)
}.

Definition getItem (key : string) : block Window (option string) :=
  fun w =>
    if readable (localStorage w)
    then (Normal (items (localStorage w) !! key), w)
    else (Abrupt (ErrorObject "SecurityError"), w).

Definition setItem (key text : string) : block Window unit :=
  fun w =>
    let store := localStorage w in
    if writable store
    then (Normal tt,
          mkWindow (mkStorage (<[key := text]> (items store))
                              (readable store) (writable store))
                   (console w))
    else (Abrupt (ErrorObject "QuotaExceededError"), w).

Definition console_error (message : string) (error : thrown)
  : block Window unit :=
  modify (fun w => mkWindow (localStorage w) (console w ++ [(message, error)])).

Definition quoted (key : string) : string :=
  String dquote (key ++ String dquote ":")%string.

Definition reading_message (key : string) : string :=
  ("Error reading localStorage key " ++ quoted key)%string.

Definition setting_message (key : string) : string :=
  ("Error setting localStorage key " ++ quoted key)%string.

(** [item ? ... : ...] for an item that is a string or [null]. *)
Definition truthy (item : option string) : bool :=
  match item with
  | Some (String _ _) => true
  | Some EmptyString => false
  | None => false
  end.

Section Hook.
Context {T : Type} `{Json T}.

Definition JSON_parse {S : Type} (text : string) : block S T :=
  match parse text with
  | Some v => ret v
  | None => throw (ErrorObject "SyntaxError")
  end.

(** The function handed to [useState]: the host calls it on the first
    render only. *)
Definition initializer (key : string) (initialValue : T) : block Window T :=
  (try_catch
     (let* item := getItem key in
      if truthy item
      then JSON_parse (default EmptyString item)
      else ret initialValue)
     (fun error =>
        console_error (reading_message key) error ;;;
        ret initialValue))%block.

(** The first render of [useLocalStorage(key, initialValue)]. *)
Definition useLocalStorage (key : string) (initialValue : T)
  : block Window (StateCell T) :=
  (let* v := initializer key initialValue in ret (useState v))%block.

(** What [setValue] works on: the hook's state cell and the window. *)
Record World : Type := mkWorld {
  cell : StateCell T;
  window : Window
}.

Definition setStoredValue (v : T) : block World unit :=
  modify (fun w => mkWorld (write (Literal v) (cell w)) (window w)).

Definition in_window {A} (m : block Window A) : block World A :=
  fun w =>
    match m (window w) with
    | (r, win') => (r, mkWorld (cell w) win')
    end.

(** The callback of a render that saw [storedValue]; [value instanceof
    Function] is the [Updater] case. *)
Definition setValue (key : string) (storedValue : T) (value : SetStateAction T)
  : block World unit :=
  (try_catch
     (let valueToStore :=
        match value with
        | Updater f => f storedValue
        | Literal v => v
        end in
      setStoredValue valueToStore ;;;
      in_window (setItem key (stringify valueToStore)))
     (fun error => in_window (console_error (setting_message key) error)))%block.

(** The callback the current render hands out. *)
Definition rendered_setValue (key : string) (w : World)
  : SetStateAction T -> block World unit :=
  setValue key (read (cell w)).

(** Calls made through one and the same callback before the next render. *)
Fixpoint batch (callback : SetStateAction T -> block World unit)
  (values : list (SetStateAction T)) (w : World) : World :=
  match values with
  | [] => w
  | v :: rest => batch callback rest (snd (callback v w))
  end.

Definition commit (w : World) : World :=
  mkWorld (rerender (cell w)) (window w).

(** An event handler that calls the rendered [setValue] on each of
    [values], and the render that follows. *)
Definition handle (key : string) (values : list (SetStateAction T)) (w : World)
  : World :=
  commit (batch (rendered_setValue key w) values w).

End Hook.
Arguments World T : clear implicits.

End useLocalStorage.

(** ** 4. useApi *)

Module useApi.

Section Hook.
Context {T : Type}.

(** What [fetch] resolves with: [json] is how [response.json()] settles. *)
Record Response : Type := mkResponse {
  ok : bool;
  status : N;
  json : completion T
}.

(** How the promise [fetch(url)] settles. *)
Inductive settled : Type :=
| Fulfilled (response : Response)
| Rejected (reason : thrown).

(** The three state cells of the hook. *)
Record State : Type := mkState {
  data : StateCell (option T);
  loading : StateCell bool;
  error : StateCell (option string)
}.

Definition useApi : State :=
  mkState (useState None) (useState false) (useState None).

Definition setData (v : option T) : block State unit :=
  modify (fun s => mkState (write (Literal v) (data s)) (loading s) (error s)).

Definition setLoading (v : bool) : block State unit :=
  modify (fun s => mkState (data s) (write (Literal v) (loading s)) (error s)).

Definition setError (v : option string) : block State unit :=
  modify (fun s => mkState (data s) (loading s) (write (Literal v) (error s))).

Definition await_fetch (net : settled) : block State Response :=
  match net with
  | Fulfilled response => ret response
  | Rejected reason => throw reason
  end.

Definition http_error (response : Response) : thrown :=
  ErrorObject
    ("HTTP error! status: " ++
     NilZero.string_of_uint (N.to_uint (status response)))%string.

(** [err instanceof Error ? err.message : 'An error occurred'] *)
Definition describe (err : thrown) : string :=
  match err with
  | ErrorObject message => message
  | NotAnError => "An error occurred"
  end.

(** [fetchData] up to its first [await]: it runs when the callback is
    called. *)
Definition fetchData_begin : block State unit :=
  (setLoading true ;;; setError None)%block.

(** The rest of [fetchData], which runs once the network has answered with
    [net]. *)
Definition fetchData_resume (net : settled) : block State unit :=
  (try_finally
     (try_catch
        (let* response := await_fetch net in
         (if negb (ok response) then throw (http_error response) else ret tt) ;;;
         let* result := lift (json response) in
         setData (Some result))
        (fun err => setError (Some (describe err))))
     (setLoading false))%block.

Definition rerender_all (s : State) : State :=
  mkState (rerender (data s)) (rerender (loading s)) (rerender (error s)).

(** What the component sees of the hook in a render. *)
Record View : Type := mkView {
  view_data : option T;
  view_loading : bool;
  view_error : option string
}.

Definition view (s : State) : View :=
  mkView (read (data s)) (read (loading s)) (read (error s)).

(** What happens to a mounted hook: [fetchData] is called (by the effect,
    after the first render and whenever the url changes, or as [refetch]),
    or a request that is in flight settles. Several requests may be in
    flight; their answers arrive in any order, and nothing in the hook tells
    them apart. *)
Inductive event : Type :=
| Call
| Settle (net : settled).

Definition handler (e : event) : block State unit :=
  match e with
  | Call => fetchData_begin
  | Settle net => fetchData_resume net
  end.

(** One event and the render it causes. *)
Definition step (s : State) (e : event) : State :=
  rerender_all (snd (handler e s)).

Definition run (s : State) (es : list event) : State := fold_left step es s.

(** The answer is a failure: the request was rejected, the status is not
    ok, or the body is not the JSON it should be. *)
Definition failure (net : settled) : option thrown :=
  match net with
  | Rejected reason => Some reason
  | Fulfilled response =>
      if negb (ok response) then Some (http_error response)
      else match json response with
           | Normal _ => None
           | Abrupt reason => Some reason
           end
  end.

(** The answer is a success with this body. *)
Definition success (net : settled) : option T :=
  match net with
  | Rejected _ => None
  | Fulfilled response =>
      if negb (ok response) then None
      else match json response with
           | Normal result => Some result
           | Abrupt _ => None
           end
  end.

End Hook.
Arguments Response T : clear implicits.
Arguments settled T : clear implicits.
Arguments State T : clear implicits.
Arguments View T : clear implicits.
Arguments event T : clear implicits.

End useApi.

(** ** 7. useDebounce *)

Module useDebounce.

Section Hook.
Context {T : Type} `{EqDecision T}.

(** A timer of the host: the time from which it may run, and the value its
    callback [() => setDebouncedValue(value)] closed over. *)
Record Timer : Type := mkTimer {
  due : nat;
  captured : T
}.

Record State : Type := mkState {
  debouncedValue : StateCell T;
  (** the dependency list [value, delay] of the last run of the effect *)
  deps : T * nat;
  (** the timer the cleanup of that run will clear; [None] once the
      component is gone *)
  handler : option nat;
  (** the timers set and neither run nor cleared *)
  timers : gmap nat Timer;
  next_id : nat
}.

(** [setTimeout(callback, delay)] called at the time [now]. *)
Definition setTimeout (now : nat) (value : T) (delay : nat) (s : State)
  : nat * State :=
  let id := next_id s in
  (id,
   mkState (debouncedValue s) (deps s) (handler s)
           (<[id := mkTimer (now + delay) value]> (timers s)) (S id)).

Definition clearTimeout (id : nat) (s : State) : State :=
  mkState (debouncedValue s) (deps s) (handler s)
          (delete id (timers s)) (next_id s).

(** The body of the effect, run for the arguments of a render. *)
Definition effect (now : nat) (value : T) (delay : nat) (s : State) : State :=
  let (id, s') := setTimeout now value delay s in
  mkState (debouncedValue s') (value, delay) (Some id)
          (timers s') (next_id s').

(** The function the effect returned. *)
Definition cleanup (s : State) : State :=
  match handler s with
  | Some id => clearTimeout id s
  | None => s
  end.

(** The first render of [useDebounce(value, delay)] and its effect. *)
Definition useDebounce (now : nat) (value : T) (delay : nat) : State :=
  effect now value delay (mkState (useState value) (value, delay) None ∅ 0).

Definition setDebouncedValue (v : T) (s : State) : State :=
  mkState (write (Literal v) (debouncedValue s)) (deps s) (handler s)
          (timers s) (next_id s).

Definition commit (s : State) : State :=
  mkState (rerender (debouncedValue s)) (deps s) (handler s)
          (timers s) (next_id s).

(** What happens to a mounted hook, and when: the component renders with
    new arguments, the host finds the timer [id] to run, the component is
    removed. *)
Inductive event : Type :=
| Render (now : nat) (value : T) (delay : nat)
| Fire (now : nat) (id : nat)
| Unmount (now : nat).

Definition time_of (e : event) : nat :=
  match e with
  | Render now _ _ => now
  | Fire now _ => now
  | Unmount now => now
  end.

Definition step (s : State) (e : event) : State :=
  match e with
  | Render now value delay =>
      match handler s with
      | Some _ =>
          if decide ((value, delay) = deps s) then s
          else effect now value delay (cleanup s)
      | None => s
      end
  | Fire now id =>
      match timers s !! id with
      | Some t =>
          if due t <=? now
          then commit (setDebouncedValue (captured t) (clearTimeout id s))
          else s
      | None => s
      end
  | Unmount _ =>
      let s' := cleanup s in
      mkState (debouncedValue s') (deps s') None (timers s') (next_id s')
  end.

Definition run (s : State) (es : list event) : State := fold_left step es s.

(** What the hook returns in the render after each event, with the time of
    the event. *)
Fixpoint observe (s : State) (es : list event) : list (nat * T) :=
  match es with
  | [] => []
  | e :: rest =>
      let s' := step s e in
      (time_of e, read (debouncedValue s')) :: observe s' rest
  end.

(** The times of the events do not go back. *)
Fixpoint chronological (now : nat) (es : list event) : Prop :=
  match es with
  | [] => True
  | e :: rest => now <= time_of e /\ chronological (time_of e) rest
  end.

(** A burst under way: every further render is an update of the source, to
    a value other than the one before, for the same [delay] and less than
    [delay] after the update before it; meanwhile the host may look at its
    timers, and the component stays. *)
Fixpoint burst (delay last : nat) (prev : T) (es : list event) : Prop :=
  match es with
  | [] => True
  | Render now value d :: rest =>
      d = delay /\ value <> prev /\ now < last + delay /\
      burst delay now value rest
  | Fire _ _ :: rest => burst delay last prev rest
  | Unmount _ :: _ => False
  end.

(** The time and the value of the last update among [es], or the given
    ones when there is none. *)
Fixpoint last_update (last : nat) (prev : T) (es : list event) : nat * T :=
  match es with
  | [] => (last, prev)
  | Render now value _ :: rest => last_update now value rest
  | _ :: rest => last_update last prev rest
  end.

(** The pending timers are at most the one the hook will clear. *)
Definition owned (s : State) : Prop :=
  forall id t, timers s !! id = Some t -> handler s = Some id.

(** The timer the hook will clear was set by an earlier call. *)
Definition fresh (s : State) : Prop :=
  forall id, handler s = Some id -> id < next_id s.

(** The hook waits for one timer: [id], due at [at_], to show [v]. *)
Definition armed (s : State) (id at_ : nat) (v : T) : Prop :=
  handler s = Some id /\ timers s = {[id := mkTimer at_ v]}.

Definition is_fire (e : event) : Prop :=
  match e with
  | Fire _ _ => True
  | _ => False
  end.

End Hook.
Arguments Timer T : clear implicits.
Arguments State T : clear implicits.
Arguments event T : clear implicits.

End useDebounce.

(** ** 8. useForm *)

Module useForm.

Section Hook.
Context {V : Type}.

(** [errors[name]]: undefined for a missing key and for a key that holds
    undefined. *)
Definition get (errors : gmap string (option string)) (name : string)
  : option string :=
  default None (errors !! name).

(** [if (errors[name])]: a non-empty message. *)
Definition truthy (e : option string) : bool :=
  match e with
  | Some (String _ _) => true
  | Some EmptyString => false
  | None => false
  end.

Record State : Type := mkState {
  values : StateCell (gmap string V);
  errors : StateCell (gmap string (option string))
}.

Definition useForm (initialValues : gmap string V) : State :=
  mkState (useState initialValues) (useState ∅).

Definition setValues (a : SetStateAction (gmap string V)) (s : State) : State :=
  mkState (write a (values s)) (errors s).

Definition setErrors (a : SetStateAction (gmap string (option string)))
  (s : State) : State :=
  mkState (values s) (write a (errors s)).

(** The callback of a render that saw [errors]. *)
Definition setValue (errors : gmap string (option string))
  (name : string) (value : V) (s : State) : State :=
  let s' := setValues (Updater (fun prev => <[name := value]> prev)) s in
  if truthy (get errors name)
  then setErrors (Updater (fun prev => <[name := None]> prev)) s'
  else s'.

Definition setError (name : string) (error : string) (s : State) : State :=
  setErrors (Updater (fun prev => <[name := Some error]> prev)) s.

(** The callback of a render whose argument was [initialValues]. *)
Definition reset (initialValues : gmap string V) (s : State) : State :=
  setErrors (Literal ∅) (setValues (Literal initialValues) s).

Definition commit (s : State) : State :=
  mkState (rerender (values s)) (rerender (errors s)).

(** The hook in a render that shows these values and errors. *)
Definition rendered (vals : gmap string V)
  (errs : gmap string (option string)) : State :=
  mkState (useState vals) (useState errs).

Inductive call : Type :=
| SetValue (name : string) (value : V)
| SetError (name : string) (error : string)
| Reset.

(** A call through the callbacks of the render that saw [errors], for the
    argument [initialValues]. *)
Definition invoke (initialValues : gmap string V)
  (errors : gmap string (option string)) (c : call) (s : State) : State :=
  match c with
  | SetValue name value => setValue errors name value s
  | SetError name error => setError name error s
  | Reset => reset initialValues s
  end.

(** An event handler that makes the calls [cs] through the callbacks of the
    current render, and the render that follows. *)
Definition handle (initialValues : gmap string V) (cs : list call) (s : State)
  : State :=
  commit (fold_left (fun s' c => invoke initialValues (read (errors s)) c s')
                    cs s).

(** One call per event: every call goes through the callbacks of the
    latest render. *)
Definition event (initialValues : gmap string V) (s : State) (c : call)
  : State :=
  handle initialValues [c] s.

Definition events (initialValues : gmap string V) (cs : list call) (s : State)
  : State :=
  fold_left (event initialValues) cs s.

End Hook.
Arguments State V : clear implicits.
Arguments call V : clear implicits.

End useForm.

(** ** 3. useWindowSize *)

Module useWindowSize.

(** The object [{ width, height }] the hook returns. *)
Record Size : Type := mkSize {
  width : N;
  height : N
}.

(** The part of the browser the hook touches: the size of the window, the
    functions listening to [resize] in the order they were added, and how
    many function objects have been created, which gives the next one its
    identity. *)
Record Browser : Type := mkBrowser {
  innerWidth : N;
  innerHeight : N;
  listeners : list nat;
  functions : nat
}.

Record Hook : Type := mkHook {
  windowSize : StateCell Size;
  (** the function the effect created and its cleanup will remove *)
  handleResize : option nat
}.

Record World : Type := mkWorld {
  browser : Browser;
  hook : Hook
}.

Definition current (b : Browser) : Size :=
  mkSize (innerWidth b) (innerHeight b).

(** A function that already listens is not added again. *)
Definition addEventListener (f : nat) (b : Browser) : Browser :=
  if decide (f ∈ listeners b) then b
  else mkBrowser (innerWidth b) (innerHeight b) (listeners b ++ [f])
                 (functions b).

Definition removeEventListener (f : nat) (b : Browser) : Browser :=
  mkBrowser (innerWidth b) (innerHeight b)
            (filter (fun g => g <> f) (listeners b)) (functions b).

(** The body of [handleResize]. *)
Definition setWindowSize_current (w : World) : World :=
  mkWorld (browser w)
          (mkHook (write (Literal (current (browser w))) (windowSize (hook w)))
                  (handleResize (hook w))).

(** The effect, with an empty dependency list: it runs once, after the
    first render. *)
Definition effect (w : World) : World :=
  let b := browser w in
  let f := functions b in
  mkWorld
    (addEventListener f
       (mkBrowser (innerWidth b) (innerHeight b) (listeners b) (S f)))
    (mkHook (windowSize (hook w)) (Some f)).

(** The function the effect returned. *)
Definition cleanup (w : World) : World :=
  match handleResize (hook w) with
  | Some f => mkWorld (removeEventListener f (browser w)) (hook w)
  | None => w
  end.

(** The first render of [useWindowSize()] and its effect. *)
Definition useWindowSize (b : Browser) : World :=
  effect (mkWorld b (mkHook (useState (current b)) None)).

Definition commit (w : World) : World :=
  mkWorld (browser w)
          (mkHook (rerender (windowSize (hook w))) (handleResize (hook w))).

(** The window gets a new size and the browser calls the functions that
    listen to [resize]; or the component is removed. *)
Inductive event : Type :=
| Resize (width height : N)
| Unmount.

Definition step (w : World) (e : event) : World :=
  match e with
  | Resize width height =>
      let b := browser w in
      let w' := mkWorld (mkBrowser width height (listeners b) (functions b))
                        (hook w) in
      commit
        match handleResize (hook w) with
        | Some f =>
            if decide (f ∈ listeners b) then setWindowSize_current w' else w'
        | None => w'
        end
  | Unmount => cleanup w
  end.

Definition run (w : World) (es : list event) : World := fold_left step es w.

(** The hook's function has an identity no listener has yet. *)
Definition well_formed (b : Browser) : Prop :=
  Forall (fun g => g < functions b) (listeners b).

Definition resizes (sizes : list (N * N)) : list event :=
  map (fun size => Resize (fst size) (snd size)) sizes.

(** The hook listens, and shows the size of the window. *)
Definition tracking (w : World) : Prop :=
  (exists f, handleResize (hook w) = Some f /\ f ∈ listeners (browser w))
  /\ pending (windowSize (hook w)) = current (browser w)
  /\ read (windowSize (hook w)) = current (browser w).

(** The hook's function [f] listens no more; the hook shows [v]. *)
Definition ignored (w : World) (f : nat) (v : Size) : Prop :=
  handleResize (hook w) = Some f /\ (f ∉ listeners (browser w))
  /\ pending (windowSize (hook w)) = v
  /\ read (windowSize (hook w)) = v.

End useWindowSize.

(** ** The component that uses the hooks *)

Module CustomHooksDemo.

(** [addLog(message)] called when the clock reads [time]. *)
Definition addLog (time message : string) (logs : StateCell (list string))
  : StateCell (list string) :=
  write (Updater (fun prevLogs => prevLogs ++ [(time ++ ": " ++ message)%string]))
        logs.

Definition clearLogs (logs : StateCell (list string)) : StateCell (list string) :=
  write (Literal []) logs.

(** *** The form and its validation *)

(** The form of the component: its fields hold the strings typed into the
    inputs. *)
Record Form : Type := mkForm {
  form : useForm.State string;
  logs : StateCell (list string)
}.

Definition initialValues : gmap string string :=
  <["email" := EmptyString]>
    (<["password" := EmptyString]> (<["confirmPassword" := EmptyString]> ∅)).

Definition mount : Form := mkForm (useForm.useForm initialValues) (useState []).

(** [!formValues.email] for a field that holds a string or is not there. *)
Definition blank (v : option string) : bool :=
  match v with
  | Some (String _ _) => false
  | Some EmptyString => true
  | None => true
  end.

Definition setError (name error : string) (s : Form) : Form :=
  mkForm (useForm.setError name error (form s)) (logs s).

(** The function of a render that saw [formValues]. *)
Definition validateForm (formValues : gmap string string) (time : string)
  (s : Form) : Form :=
  let hasErrors := false in
  let '(s, hasErrors) :=
    if blank (formValues !! "email")
    then (setError "email" "Email is required" s, true)
    else (s, hasErrors) in
  let '(s, hasErrors) :=
    if blank (formValues !! "password")
    then (setError "password" "Password is required" s, true)
    else (s, hasErrors) in
  let '(s, hasErrors) :=
    if decide (formValues !! "password" = formValues !! "confirmPassword")
    then (s, hasErrors)
    else (setError "confirmPassword" "Passwords do not match" s, true) in
  if negb hasErrors
  then mkForm (form s) (addLog time "Form validation passed!" (logs s))
  else s.

Definition commit (s : Form) : Form :=
  mkForm (useForm.commit (form s)) (rerender (logs s)).

(** What the user does: a click on Validate, typing into a field, a click
    on Reset. Each goes through the functions of the latest render and is
    followed by a render. *)
Inductive action : Type :=
| Validate (time : string)
| Type_ (name value : string)
| ResetForm.

Definition act (s : Form) (a : action) : Form :=
  commit
    match a with
    | Validate time =>
        validateForm (read (useForm.values (form s))) time s
    | Type_ name value =>
        mkForm (useForm.setValue (read (useForm.errors (form s))) name value
                                 (form s))
               (logs s)
    | ResetForm => mkForm (useForm.reset initialValues (form s)) (logs s)
    end.

Definition acts (s : Form) (l : list action) : Form := fold_left act l s.

(** The three rules of [validateForm]. *)
Definition valid (formValues : gmap string string) : bool :=
  negb (blank (formValues !! "email"))
  && negb (blank (formValues !! "password"))
  && bool_decide (formValues !! "password" = formValues !! "confirmPassword").

(** A form in a render that shows these values, errors and logs. *)
Definition showing (vals : gmap string string)
  (errs : gmap string (option string)) (l : list string) : Form :=
  mkForm (useForm.rendered vals errs) (useState l).

Definition filled (email password confirmPassword : string)
  : gmap string string :=
  <["email" := email]>
    (<["password" := password]> (<["confirmPassword" := confirmPassword]> ∅)).

(** *** The log of the previous count *)

(** A whole number written into a template string. *)
Definition decimal (z : Z) : string := NilZero.string_of_int (Z.to_int z).

Definition previous_message (previousCount count : Z) : string :=
  ("Previous count: " ++ decimal previousCount ++
   ", Current count: " ++ decimal count)%string.

(** The first counter, the hook that remembers its count, the logs, and
    the dependency list [[counter1.count, previousCount]] of the last run of
    the effect that logs. *)
Record Counting : Type := mkCounting {
  counter1 : StateCell Z;
  previous : usePrevious.Ref Z;
  log_cell : StateCell (list string);
  effect_deps : option (Z * option Z)
}.

(** The body of that effect, for the values its render saw. *)
Definition log_previous (time : string) (count : Z) (previousCount : option Z)
  (logs : StateCell (list string)) : StateCell (list string) :=
  match previousCount with
  | Some p =>
      if decide (p = count) then logs
      else addLog time (previous_message p count) logs
  | None => logs
  end.

(** One render and the effects that follow it, in the order of the hooks:
    the one of [usePrevious], then the one that logs, if its dependencies
    have changed. *)
Definition render_pass (time : string) (s : Counting) : Counting :=
  let counter := rerender (counter1 s) in
  let logs := rerender (log_cell s) in
  let count := read counter in
  let previousCount := usePrevious.usePrevious count (previous s) in
  let ref := usePrevious.effect count (previous s) in
  let new_deps := (count, previousCount) in
  mkCounting counter ref
    (if decide (effect_deps s = Some new_deps) then logs
     else log_previous time count previousCount logs)
    (Some new_deps).

Definition has_updates (s : Counting) : bool :=
  match queue (counter1 s), queue (log_cell s) with
  | [], [] => false
  | _, _ => true
  end.

(** The host renders, and renders again as long as an effect has queued an
    update; [fuel] bounds the number of further renders. *)
Fixpoint renders (fuel : nat) (time : string) (s : Counting) : Counting :=
  let s' := render_pass time s in
  match fuel with
  | 0 => s'
  | S n => if has_updates s' then renders n time s' else s'
  end.

Definition mount_counting (fuel : nat) (time : string) : Counting :=
  renders fuel time
    (mkCounting (useCounter.useCounter 0) usePrevious.useRef (useState []) None).

(** A click on one of the buttons of the first counter, or a render caused
    by anything else in the component. *)
Inductive happening : Type :=
| Click (time : string) (m : useCounter.mutator)
| Other (time : string).

Definition happen (fuel : nat) (s : Counting) (h : happening) : Counting :=
  match h with
  | Click time m =>
      renders fuel time
        (mkCounting (useCounter.call 0 m (counter1 s)) (previous s)
                    (log_cell s) (effect_deps s))
  | Other time => renders fuel time s
  end.

Definition happenings (fuel : nat) (s : Counting) (hs : list happening)
  : Counting :=
  fold_left (happen fuel) hs s.

(** Between events: nothing is queued and the hook remembers the count the
    last render showed. *)
Definition settled (s : Counting) : Prop :=
  queue (counter1 s) = [] /\ queue (log_cell s) = []
  /\ usePrevious.current (previous s) = Some (read (counter1 s))
  /\ exists p, effect_deps s = Some (read (counter1 s), p).

End CustomHooksDemo.

(** ** What a sequence of calls amounts to *)

Module Trace.

(** The increments less the decrements. *)
Fixpoint balance (ms : list useCounter.mutator) : Z :=
  match ms with
  | [] => 0
  | useCounter.Increment :: rest => 1 + balance rest
  | useCounter.Decrement :: rest => balance rest - 1
  | useCounter.Reset :: rest => balance rest
  end%Z.

(** The counts are numbers of the language, whose sums are exact as long
    as they are whole and at most 2^53 in size: from [start], the calls
    [ms] cannot leave that range. *)
Definition exact_range (start : Z) (ms : list useCounter.mutator) : Prop :=
  (Z.abs start + Z.of_nat (length ms) <= 2 ^ 53)%Z.

(** The calls after the last reset, when there is one. *)
Fixpoint since_reset (ms : list useCounter.mutator)
  : option (list useCounter.mutator) :=
  match ms with
  | [] => None
  | m :: rest =>
      match since_reset rest with
      | Some tail => Some tail
      | None =>
          match m with
          | useCounter.Reset => Some rest
          | _ => None
          end
      end
  end.

(** The value the last [setTrue] or [setFalse] gave, when there is one. *)
Fixpoint last_set (ms : list useToggle.mutator) : option bool :=
  match ms with
  | [] => None
  | m :: rest =>
      match last_set rest with
      | Some b => Some b
      | None =>
          match m with
          | useToggle.SetTrue => Some true
          | useToggle.SetFalse => Some false
          | useToggle.Toggle => None
          end
      end
  end.

(** Whether the toggles after it are odd in number. *)
Fixpoint flips (ms : list useToggle.mutator) : bool :=
  match ms with
  | [] => false
  | m :: rest =>
      match last_set rest, m with
      | None, useToggle.Toggle => negb (flips rest)
      | _, _ => flips rest
      end
  end.

Section Api.
Context {T : Type}.

(** The body a settled request brought, when it succeeded. *)
Definition answer_of (e : useApi.event T) : option T :=
  match e with
  | useApi.Settle net => useApi.success net
  | useApi.Call => None
  end.

(** The body of the last request that succeeded. *)
Definition last_success (es : list (useApi.event T)) : option T :=
  last (omap answer_of es).

(** Requests made one after the other, each settled before the next is
    made. *)
Definition one_by_one (nets : list (useApi.settled T))
  : list (useApi.event T) :=
  flat_map (fun net => [useApi.Call; useApi.Settle net]) nets.

End Api.

Section Debounce.
Context {T : Type} `{EqDecision T}.

(** Every pending timer will show the value the source has now, and a
    mounted hook with no timer pending shows it already. *)
Definition synced (s : useDebounce.State T) : Prop :=
  (forall id t,
     useDebounce.timers s !! id = Some t ->
     useDebounce.captured t = fst (useDebounce.deps s))
  /\ (useDebounce.handler s <> None ->
      useDebounce.timers s = ∅ ->
      read (useDebounce.debouncedValue s) = fst (useDebounce.deps s)).

End Debounce.

End Trace.

(** ** The page on setState with a function *)

Module AdvancedSetStateDemo.

Record State : Type := mkState {
  counter : Z;
  message : string
}.

(** The state the constructor sets. *)
Definition initial : State :=
  mkState 0 "Click buttons to see setState behavior".

(** [this.setState] of a class component merges the object it is given, or
    the object its function returns for the latest state, into the latest
    state; both are kept in the queue of the component as functions of that
    state. [this.state] is the state of the last render. *)
Definition set_counter (v : Z) (prevState : State) : State :=
  mkState v (message prevState).

Definition set_message (m : string) (prevState : State) : State :=
  mkState (counter prevState) m.

Definition wrongWay (this : StateCell State) : StateCell State :=
  let this_state := read this in
  let this := write (Updater (set_counter (counter this_state + 1))) this in
  let this := write (Updater (set_counter (counter this_state + 1))) this in
  let this := write (Updater (set_counter (counter this_state + 1))) this in
  write (Updater
           (set_message "Wrong way: Only incremented by 1 due to stale state"))
        this.

Definition correctWay (this : StateCell State) : StateCell State :=
  let increment :=
    Updater (fun prevState => set_counter (counter prevState + 1) prevState) in
  let this := write increment this in
  let this := write increment this in
  let this := write increment this in
  write (Updater
           (set_message "Correct way: Incremented by 3 using callback function"))
        this.

Definition reset (this : StateCell State) : StateCell State :=
  write (Updater (fun _ => mkState 0 "Counter reset")) this.

Inductive button : Type := WrongWay | CorrectWay | Reset.

(** A click on a button and the render that follows. *)
Definition click (this : StateCell State) (b : button) : StateCell State :=
  rerender
    match b with
    | WrongWay => wrongWay this
    | CorrectWay => correctWay this
    | Reset => reset this
    end.

Definition clicks (this : StateCell State) (bs : list button)
  : StateCell State :=
  fold_left click bs this.

(** What a click does to the counter it finds. *)
Definition counted (c : Z) (b : button) : Z :=
  match b with
  | WrongWay => c + 1
  | CorrectWay => c + 3
  | Reset => 0
  end.

End AdvancedSetStateDemo.

(** ** The page on useState *)

Module UseStateDemo.

Record Todo : Type := mkTodo {
  id : Z;
  text : string;
  completed : bool
}.

(** [todo.id === id ? { ...todo, completed: !todo.completed } : todo] *)
Definition toggled (id_ : Z) (todo : Todo) : Todo :=
  if decide (id todo = id_)
  then mkTodo (id todo) (text todo) (negb (completed todo))
  else todo.

Definition toggleTodo (id_ : Z) (todos : StateCell (list Todo))
  : StateCell (list Todo) :=
  write (Updater (fun prevTodos => map (toggled id_) prevTodos)) todos.

Definition deleteTodo (id_ : Z) (todos : StateCell (list Todo))
  : StateCell (list Todo) :=
  write (Updater (fun prevTodos =>
                    filter (fun todo => id todo <> id_) prevTodos))
        todos.

(** [array.filter((_, i) => keep(i))], counting from [i]. *)
Fixpoint filter_index {A} (keep : nat -> bool) (i : nat) (l : list A) : list A :=
  match l with
  | [] => []
  | x :: rest =>
      if keep i then x :: filter_index keep (S i) rest
      else filter_index keep (S i) rest
  end.

(** [`Item ${n}`] *)
Definition item_name (n : nat) : string :=
  ("Item " ++ NilZero.string_of_uint (Nat.to_uint n))%string.

(** The function of a render that saw [items]. *)
Definition addItem (items : list string) (cell : StateCell (list string))
  : StateCell (list string) :=
  let newItem := item_name (length items + 1) in
  write (Updater (fun prevItems => prevItems ++ [newItem])) cell.

Definition removeItem (index : nat) (cell : StateCell (list string))
  : StateCell (list string) :=
  write (Updater (fun prevItems =>
                    filter_index (fun i => negb (i =? index)) 0 prevItems))
        cell.

Definition clearItems (cell : StateCell (list string))
  : StateCell (list string) :=
  write (Literal []) cell.

Inductive button : Type :=
| AddItem
| Remove (index : nat)
| ClearAll.

(** A click on a button of the list of items, through the functions of the
    latest render, and the render that follows. *)
Definition click (cell : StateCell (list string)) (b : button)
  : StateCell (list string) :=
  rerender
    match b with
    | AddItem => addItem (read cell) cell
    | Remove index => removeItem index cell
    | ClearAll => clearItems cell
    end.

Definition clicks (cell : StateCell (list string)) (bs : list button)
  : StateCell (list string) :=
  fold_left click bs cell.

End UseStateDemo.

(** ** The page on unmounting: a timer that is cleaned up, and one that is not *)

Module TimerComponent.

(** The component, its private field [timerId], whether it is mounted, and
    the timers of the host it has set and that have neither run nor been
    cleared, each with the time from which it may run. All of them run the
    same callback. *)
Record Component : Type := mkComponent {
  count : StateCell Z;
  timerId : option nat;
  mounted : bool;
  timers : gmap nat nat;
  next_id : nat
}.

(** [if (this.timerId)]: not null, and not the number zero. *)
Definition truthy (id : option nat) : bool :=
  match id with
  | Some 0 => false
  | Some (S _) => true
  | None => false
  end.

(** The constructor; [first] is the id the host gives the next timer. *)
Definition constructor (first : nat) : Component :=
  mkComponent (useState 0%Z) None true ∅ first.

(** [this.setState(prevState => ({ count: prevState.count + 1 }))]; the
    host ignores it once the component is gone. *)
Definition increment (c : Component) : Component :=
  if mounted c
  then mkComponent (write (Updater (fun prevCount => prevCount + 1)%Z) (count c))
                   (timerId c) (mounted c) (timers c) (next_id c)
  else c.

Definition startTimer (now : nat) (c : Component) : Component :=
  let id := next_id c in
  mkComponent (count c) (Some id) (mounted c)
              (<[id := now + 1000]> (timers c)) (S id).

Definition componentDidMount (now : nat) (c : Component) : Component :=
  startTimer now c.

Definition componentWillUnmount (c : Component) : Component :=
  if truthy (timerId c)
  then mkComponent (count c) None (mounted c)
                   (match timerId c with
                    | Some id => delete id (timers c)
                    | None => timers c
                    end)
                   (next_id c)
  else c.

(** The callback of the timer. *)
Definition callback (now : nat) (c : Component) : Component :=
  startTimer now (increment c).

Definition mount (first now : nat) : Component :=
  componentDidMount now (constructor first).

Definition commit (c : Component) : Component :=
  mkComponent (rerender (count c)) (timerId c) (mounted c) (timers c)
              (next_id c).

Inductive event : Type :=
| Fire (now : nat) (id : nat)
| Unmount.

Definition step (c : Component) (e : event) : Component :=
  match e with
  | Fire now id =>
      match timers c !! id with
      | Some due =>
          if due <=? now
          then commit
                 (callback now
                    (mkComponent (count c) (timerId c) (mounted c)
                                 (delete id (timers c)) (next_id c)))
          else c
      | None => c
      end
  | Unmount =>
      let c' := componentWillUnmount c in
      mkComponent (count c') (timerId c') false (timers c') (next_id c')
  end.

Definition run (c : Component) (es : list event) : Component :=
  fold_left step es c.

Definition is_fire (e : event) : Prop :=
  match e with
  | Fire _ _ => True
  | Unmount => False
  end.

(** The component is mounted and waits for exactly the timer it
    remembers. *)
Definition ticking (c : Component) : Prop :=
  mounted c = true /\ queue (count c) = []
  /\ exists id due,
       0 < id < next_id c /\ timerId c = Some id /\ timers c = {[id := due]}.

(** The component is gone, nothing of it is pending, and its count is
    [n]. *)
Definition stopped (n : Z) (c : Component) : Prop :=
  mounted c = false /\ timers c = ∅ /\ read (count c) = n.

End TimerComponent.

Module LeakyComponent.

(** The two callbacks of [componentDidMount]: the outer one and the one it
    sets. *)
Inductive callback : Type := Outer | Inner.

Record Component : Type := mkComponent {
  count : StateCell Z;
  timerId : option nat;
  mounted : bool;
  timers : gmap nat (nat * callback);
  next_id : nat
}.

Definition constructor (first : nat) : Component :=
  mkComponent (useState 0%Z) None true ∅ first.

Definition increment (c : Component) : Component :=
  if mounted c
  then mkComponent (write (Updater (fun prevCount => prevCount + 1)%Z) (count c))
                   (timerId c) (mounted c) (timers c) (next_id c)
  else c.

Definition setTimeout (now : nat) (f : callback) (c : Component) : Component :=
  let id := next_id c in
  mkComponent (count c) (Some id) (mounted c)
              (<[id := (now + 1000, f)]> (timers c)) (S id).

Definition componentDidMount (now : nat) (c : Component) : Component :=
  setTimeout now Outer c.

Definition call (f : callback) (now : nat) (c : Component) : Component :=
  match f with
  | Outer =>
      let c := increment c in
      if TimerComponent.truthy (timerId c) then setTimeout now Inner c else c
  | Inner => increment c
  end.

Definition mount (first now : nat) : Component :=
  componentDidMount now (constructor first).

Definition commit (c : Component) : Component :=
  mkComponent (rerender (count c)) (timerId c) (mounted c) (timers c)
              (next_id c).

Inductive event : Type :=
| Fire (now : nat) (id : nat)
| Unmount.

(** The component has no [componentWillUnmount]. *)
Definition step (c : Component) (e : event) : Component :=
  match e with
  | Fire now id =>
      match timers c !! id with
      | Some (due, f) =>
          if due <=? now
          then commit
                 (call f now
                    (mkComponent (count c) (timerId c) (mounted c)
                                 (delete id (timers c)) (next_id c)))
          else c
      | None => c
      end
  | Unmount =>
      mkComponent (count c) (timerId c) false (timers c) (next_id c)
  end.

Definition run (c : Component) (es : list event) : Component :=
  fold_left step es c.

(** How far the component has got: the outer timer is pending, the inner
    one is, or none is. *)
Definition stage (c : Component) : Prop :=
  queue (count c) = []
  /\ ((read (count c) = 0%Z
       /\ exists id due, timerId c = Some id
                         /\ timers c = {[id := (due, Outer)]})
      \/ ((0 <= read (count c) <= 1)%Z
          /\ exists id due, timers c = {[id := (due, Inner)]})
      \/ ((0 <= read (count c) <= 2)%Z /\ timers c = ∅)).

End LeakyComponent.

(** ** Sample inputs *)

(** Typing into the search box of the demo with a delay of 5: the box shows
    the empty string from time 0, "r" from 3 and "re" from 7; the host
    looks at its timers at 6, 11 and 12. *)
Definition typing : list (useDebounce.event string) :=
  [useDebounce.Fire 6 1; useDebounce.Render 7 "re" 5;
   useDebounce.Fire 11 1; useDebounce.Fire 12 2].

(** Answers of the network: a 404 whose body is never read, and a 200 with
    the body [n]. *)
Definition not_found : useApi.settled nat :=
  useApi.Fulfilled (useApi.mkResponse false 404 (Normal 7)).

Definition answer (n : nat) : useApi.settled nat :=
  useApi.Fulfilled (useApi.mkResponse true 200 (Normal n)).

(** An empty store that takes items, and one that refuses them. *)
Definition fresh_window : useLocalStorage.Window :=
  useLocalStorage.mkWindow (useLocalStorage.mkStorage ∅ true true) [].

Definition full_window : useLocalStorage.Window :=
  useLocalStorage.mkWindow (useLocalStorage.mkStorage ∅ true false) [].

(** A store the page may not read, and one that holds a text under the
    key which is no JSON. *)
Definition locked_window : useLocalStorage.Window :=
  useLocalStorage.mkWindow (useLocalStorage.mkStorage ∅ false false) [].

Definition garbled_window : useLocalStorage.Window :=
  useLocalStorage.mkWindow
    (useLocalStorage.mkStorage (<["theme" := "{oops"]> ∅) true true) [].

(** [useLocalStorage('theme', 'light')] in its first render. *)
Definition theme (win : useLocalStorage.Window) : useLocalStorage.World string :=
  useLocalStorage.mkWorld (useState "light") win.

(** The same hook at the type [string | undefined]. *)
Definition optional_theme (win : useLocalStorage.Window)
  : useLocalStorage.World (option string) :=
  useLocalStorage.mkWorld (useState (Some "light")) win.

(** The form of the demo with an error under the password. *)
Definition login_form : gmap string string :=
  <["email" := EmptyString]> (<["password" := EmptyString]> ∅).

Definition login_errors : gmap string (option string) :=
  <["password" := Some "Password is required"]> ∅.


(** A window of 1024 by 768 to whose resizing two functions listen. *)
Definition demo_browser : useWindowSize.Browser :=
  useWindowSize.mkBrowser 1024 768 [0; 1] 2.

(** * Properties *)

(** ** State cells *)

Section CellFacts.
Context {T : Type}.
Implicit Types (c : StateCell T) (a : SetStateAction T).

Lemma queue_writes acts c : queue (writes acts c) = queue c ++ acts.
Proof.
  revert c; induction acts as [|a acts IH]; intros c; simpl.
  - now rewrite app_nil_r.
  - rewrite IH; simpl. now rewrite <- app_assoc.
Qed.

Lemma value_writes acts c : value (writes acts c) = value c.
Proof.
  revert c; induction acts as [|a acts IH]; intros c; simpl; [easy|].
  now rewrite IH.
Qed.

Lemma pending_write a c : pending (write a c) = resolve (pending c) a.
Proof. unfold pending; simpl. now rewrite fold_left_app. Qed.

Lemma pending_writes acts c :
  pending (writes acts c) = fold_left resolve acts (pending c).
Proof.
  unfold pending. now rewrite queue_writes, value_writes, fold_left_app.
Qed.

(** One batch of setter calls folds left to right over the latest pending
    value, literals and updaters alike. *)
Lemma batch_left_fold acts c :
  read (rerender (writes acts c)) = fold_left resolve acts (pending c).
Proof. apply pending_writes. Qed.

Lemma pending_rerender c : pending (rerender c) = pending c.
Proof. reflexivity. Qed.

Lemma read_rerender c : read (rerender c) = pending c.
Proof. reflexivity. Qed.

Lemma pending_useState (v : T) : pending (useState v) = v.
Proof. reflexivity. Qed.

(** A literal write is the write of the constant updater. *)
Lemma literal_as_updater (v : T) c :
  pending (write (Literal v) c) = pending (write (Updater (fun _ => v)) c).
Proof. now rewrite !pending_write. Qed.

End CellFacts.

(** ** useCounter *)

Lemma useCounter_pending_call initialValue m count :
  pending (useCounter.call initialValue m count)
  = useCounter.effect initialValue m (pending count).
Proof.
  destruct m; cbn [useCounter.call useCounter.effect];
    unfold useCounter.increment, useCounter.decrement, useCounter.reset;
    now rewrite pending_write.
Qed.

(** The mutators of the counter, called any number of times before the
    next render, fold left to right over the count. *)
Lemma useCounter_left_fold initialValue ms count :
  read (rerender (useCounter.calls initialValue ms count))
  = fold_left (fun v m => useCounter.effect initialValue m v) ms (pending count).
Proof.
  rewrite read_rerender. unfold useCounter.calls.
  revert count; induction ms as [|m ms IH]; intros count; simpl; [easy|].
  now rewrite IH, useCounter_pending_call.
Qed.

Example useCounter_three_increments :
  read (rerender (useCounter.calls 0
    [useCounter.Increment; useCounter.Increment; useCounter.Increment]
    (useCounter.useCounter 0))) = 3%Z.
Proof. reflexivity. Qed.

(** ** useToggle *)

Lemma useToggle_pending_call m value :
  pending (useToggle.call m value) = useToggle.effect m (pending value).
Proof.
  destruct m; cbn [useToggle.call useToggle.effect];
    unfold useToggle.toggle, useToggle.setTrue, useToggle.setFalse;
    now rewrite pending_write.
Qed.

Lemma useToggle_call_as_updater m value :
  pending (useToggle.call m value)
  = pending (write (Updater (useToggle.effect m)) value).
Proof. rewrite useToggle_pending_call. now rewrite pending_write. Qed.

Lemma useToggle_calls_left_fold ms value :
  pending (useToggle.calls ms value)
  = fold_left (fun v m => useToggle.effect m v) ms (pending value).
Proof.
  unfold useToggle.calls.
  revert value; induction ms as [|m ms IH]; intros value; simpl; [easy|].
  now rewrite IH, useToggle_pending_call.
Qed.

(** C9. A toggle created with [false] that is toggled three times shows
    false, true, false, true; and each of [toggle], [setTrue], [setFalse]
    acts on the cell as the write of a pure updater ([negb], constantly
    true, constantly false), so that any calls made before the next render
    compose from left to right. *)
Theorem useToggle_three_toggles_and_pure_mutators :
  useToggle.shown [useToggle.Toggle; useToggle.Toggle; useToggle.Toggle]
                  (useToggle.useToggle false)
  = [false; true; false; true]
  /\ (forall m value,
        pending (useToggle.call m value)
        = pending (write (Updater (useToggle.effect m)) value))
  /\ (forall prev,
        useToggle.effect useToggle.Toggle prev = negb prev
        /\ useToggle.effect useToggle.SetTrue prev = true
        /\ useToggle.effect useToggle.SetFalse prev = false)
  /\ (forall ms value,
        read (rerender (useToggle.calls ms value))
        = fold_left (fun v m => useToggle.effect m v) ms (pending value)).
Proof.
  split; [reflexivity|].
  split; [apply useToggle_call_as_updater|].
  split; [now intros prev|].
  intros ms value. rewrite read_rerender. apply useToggle_calls_left_fold.
Qed.

(** ** usePrevious *)

Lemma usePrevious_renders_from {T} (values : list T) (ref : usePrevious.Ref T) :
  usePrevious.renders values ref
  = match values with
    | [] => []
    | _ :: _ => usePrevious.current ref :: map Some (removelast values)
    end.
Proof.
  revert ref; induction values as [|v rest IH]; intros ref; [easy|].
  simpl usePrevious.renders. rewrite IH.
  destruct rest as [|w rest']; [easy|].
  reflexivity.
Qed.

Lemma nth_error_removelast {A} (l : list A) n :
  S n < length l -> nth_error (removelast l) n = nth_error l n.
Proof.
  revert n; induction l as [|x l IH]; intros n Hn; [simpl in Hn; lia|].
  destruct l as [|y l']; [simpl in Hn; lia|].
  destruct n as [|n]; [reflexivity|].
  change (nth_error (removelast (y :: l')) n = nth_error (y :: l') n).
  apply IH. simpl in Hn |- *. lia.
Qed.

(** C8. The first render returns undefined and every later render returns
    the argument of the render before it: the box is written by the effect,
    after the render has returned. *)
Theorem usePrevious_lags_one_render {T} (values : list T) :
  (forall (v : T) (ref : usePrevious.Ref T),
     usePrevious.render v ref
     = (usePrevious.current ref, usePrevious.mkRef (Some v)))
  /\ nth_error (usePrevious.renders values usePrevious.useRef) 0
     = match values with [] => None | _ :: _ => Some None end
  /\ (forall n,
        S n < length values ->
        nth_error (usePrevious.renders values usePrevious.useRef) (S n)
        = option_map Some (nth_error values n)).
Proof.
  split; [reflexivity|].
  rewrite usePrevious_renders_from.
  split; [now destruct values|].
  intros n Hn. destruct values as [|v rest]; [simpl in Hn; lia|].
  cbn [nth_error]. rewrite nth_error_map. f_equal.
  apply nth_error_removelast. exact Hn.
Qed.

Lemma usePrevious_lags_one_render_witness :
  2 < length [10; 20; 30]
  /\ nth_error (usePrevious.renders [10; 20; 30] usePrevious.useRef) 2
     = Some (Some 20).
Proof.
  split; [simpl; lia|].
  apply (proj2 (proj2 (usePrevious_lags_one_render [10; 20; 30])) 1).
  simpl; lia.
Defined.

(** ** useApi *)

Section ApiFacts.
Context {T : Type}.
Implicit Types (s : useApi.State T) (net : useApi.settled T).

Lemma useApi_failure_or_success net :
  (exists e, useApi.failure net = Some e /\ useApi.success net = None)
  \/ (exists r, useApi.success net = Some r /\ useApi.failure net = None).
Proof.
  destruct net as [[[] n [r|e]]|e]; simpl; eauto.
Qed.

Lemma fetchData_resume_failure net e s :
  useApi.failure net = Some e ->
  useApi.fetchData_resume net s
  = (Normal tt,
     useApi.mkState (useApi.data s)
       (write (Literal false) (useApi.loading s))
       (write (Literal (Some (useApi.describe e))) (useApi.error s))).
Proof.
  destruct net as [[[] n [r'|e']]|e']; simpl;
    intros [= <-]; reflexivity.
Qed.

Lemma fetchData_resume_success net r s :
  useApi.success net = Some r ->
  useApi.fetchData_resume net s
  = (Normal tt,
     useApi.mkState (write (Literal (Some r)) (useApi.data s))
       (write (Literal false) (useApi.loading s))
       (useApi.error s)).
Proof.
  destruct net as [[[] n [r'|e']]|e']; simpl;
    intros [= <-]; reflexivity.
Qed.

Lemma fetchData_begin_eq s :
  useApi.fetchData_begin s
  = (Normal tt,
     useApi.mkState (useApi.data s)
       (write (Literal true) (useApi.loading s))
       (write (Literal None) (useApi.error s))).
Proof. reflexivity. Qed.


Lemma useApi_view_Call s :
  useApi.view (useApi.step s useApi.Call)
  = useApi.mkView (pending (useApi.data s)) true None.
Proof.
  unfold useApi.step, useApi.handler. rewrite fetchData_begin_eq.
  unfold useApi.view, useApi.rerender_all; simpl.
  now rewrite !pending_write.
Qed.

(** A completion is applied to whatever state it finds. *)
Lemma useApi_view_Settle net s :
  useApi.view (useApi.step s (useApi.Settle net))
  = useApi.mkView
      (match useApi.success net with
       | Some r => Some r
       | None => pending (useApi.data s)
       end)
      false
      (match useApi.failure net with
       | Some e => Some (useApi.describe e)
       | None => pending (useApi.error s)
       end).
Proof.
  unfold useApi.step, useApi.handler.
  destruct (useApi_failure_or_success net) as [(e & He & Hr)|(r & Hr & He)];
    rewrite He, Hr.
  - rewrite (fetchData_resume_failure _ _ _ He).
    unfold useApi.view, useApi.rerender_all; simpl.
    now rewrite !pending_write.
  - rewrite (fetchData_resume_success _ _ _ Hr).
    unfold useApi.view, useApi.rerender_all; simpl.
    now rewrite !pending_write.
Qed.

(** After an event the queues are empty: what is pending is what the
    render shows. *)
Lemma useApi_step_pending s e :
  let s' := useApi.step s e in
  pending (useApi.data s') = useApi.view_data (useApi.view s')
  /\ pending (useApi.loading s') = useApi.view_loading (useApi.view s')
  /\ pending (useApi.error s') = useApi.view_error (useApi.view s').
Proof. now cbv zeta. Qed.


End ApiFacts.


(** C1, as the claim has it, fails: the first request answers 1 after the
    second has answered 2, and the hook ends up showing 1, not what the
    completion of the second request had produced. *)
Lemma useApi_stale_completion_overwrites :
  let issued := useApi.run useApi.useApi [useApi.Call; useApi.Call] in
  let after_second := useApi.step issued (useApi.Settle (answer 2)) in
  let after_first := useApi.step after_second (useApi.Settle (answer 1)) in
  useApi.view after_second = useApi.mkView (Some 2) false None
  /\ useApi.view after_first = useApi.mkView (Some 1) false None
  /\ useApi.view after_first <> useApi.view after_second.
Proof. cbv zeta. split; [reflexivity|]. split; [reflexivity|]. discriminate. Qed.

(** C1, amended. The hook keeps no request token: a completion is applied
    when it arrives, whatever was issued or has completed since. With two
    requests in flight whose answers arrive second request first, the first
    request's completion is applied on top of the second's: [loading] is
    false, [data] is the first request's result when it succeeded and
    otherwise what the second completion left, [error] is the first
    request's failure when it failed and otherwise what the second
    completion left. *)
Theorem useApi_completions_apply_in_arrival_order {T}
  (s : useApi.State T) (first second : useApi.settled T) :
  let issued := useApi.run s [useApi.Call; useApi.Call] in
  let after_second := useApi.step issued (useApi.Settle second) in
  let after_first := useApi.step after_second (useApi.Settle first) in
  useApi.view issued = useApi.mkView (pending (useApi.data s)) true None
  /\ useApi.view after_first
     = useApi.mkView
         (match useApi.success first with
          | Some r => Some r
          | None => useApi.view_data (useApi.view after_second)
          end)
         false
         (match useApi.failure first with
          | Some e => Some (useApi.describe e)
          | None => useApi.view_error (useApi.view after_second)
          end)
  /\ useApi.view after_second
     = useApi.mkView
         (match useApi.success second with
          | Some r => Some r
          | None => pending (useApi.data s)
          end)
         false
         (match useApi.failure second with
          | Some e => Some (useApi.describe e)
          | None => None
          end).
Proof.
  cbv zeta. unfold useApi.run. cbn [fold_left].
  split; [|split].
  - now rewrite useApi_view_Call.
  - now rewrite useApi_view_Settle.
  - now rewrite useApi_view_Settle.
Qed.

(** ** JSON text of strings *)

Lemma string_app_assoc (a b c : string) :
  ((a ++ b) ++ c = a ++ (b ++ c))%string.
Proof.
  induction a as [|x a IH]; [reflexivity|].
  change (String x ((a ++ b) ++ c) = String x (a ++ (b ++ c)))%string.
  now rewrite IH.
Qed.

(** Reading back one quoted character. *)
Lemma unquote_quote_char (c : ascii) (tail : string) :
  unquote_chars (quote_char c ++ tail)
  = match unquote_chars tail with
    | Some (body, after) => Some (String c body, after)
    | None => None
    end.
Proof.
  destruct c as [[] [] [] [] [] [] [] []]; reflexivity.
Qed.

Lemma unquote_quote_chars (s rest : string) :
  unquote_chars (quote_chars s ++ String dquote rest) = Some (s, rest).
Proof.
  induction s as [|c s IH]; [reflexivity|].
  cbn [quote_chars]. rewrite string_app_assoc, unquote_quote_char.
  now rewrite IH.
Qed.

Lemma parse_string_quoted (text : string) :
  parse_string (String dquote text)
  = match unquote_chars text with
    | Some (body, after) =>
        match skip_spaces after with
        | EmptyString => Some body
        | String _ _ => None
        end
    | None => None
    end.
Proof. reflexivity. Qed.

(** Every string comes back from its JSON text, which is never empty. *)
Lemma json_string_faithful (s : string) : faithful s.
Proof.
  split; [|discriminate].
  cbn [parse stringify json_string]. unfold stringify_string.
  rewrite parse_string_quoted, unquote_quote_chars. reflexivity.
Qed.

(** ** useLocalStorage *)

Section StorageFacts.
Context {T : Type} `{Json T}.
Import useLocalStorage.
Implicit Types (w : World T) (win : Window) (value : SetStateAction T).

(** [setValue] when the store takes the item. *)
Lemma setValue_stored key storedValue value w :
  writable (localStorage (window w)) = true ->
  setValue key storedValue value w
  = (Normal tt,
     mkWorld
       (write (Literal (resolve storedValue value)) (cell w))
       (mkWindow
          (mkStorage
             (<[key := stringify (resolve storedValue value)]>
                (items (localStorage (window w))))
             (readable (localStorage (window w)))
             (writable (localStorage (window w))))
          (console (window w)))).
Proof.
  intros Hw. unfold setValue, try_catch, bind, setStoredValue, modify,
    in_window, setItem. cbn [window cell]. rewrite Hw.
  destruct value; reflexivity.
Qed.

(** [setValue] when [setItem] throws. *)
Lemma setValue_refused key storedValue value w :
  writable (localStorage (window w)) = false ->
  setValue key storedValue value w
  = (Normal tt,
     mkWorld
       (write (Literal (resolve storedValue value)) (cell w))
       (mkWindow
          (localStorage (window w))
          (console (window w)
           ++ [(setting_message key, ErrorObject "QuotaExceededError")]))).
Proof.
  intros Hw. unfold setValue, try_catch, bind, setStoredValue, modify,
    in_window, setItem, console_error. cbn [window cell]. rewrite Hw.
  destruct value; reflexivity.
Qed.

Lemma setValue_cell key storedValue value w :
  fst (setValue key storedValue value w) = Normal tt
  /\ cell (snd (setValue key storedValue value w))
     = write (Literal (resolve storedValue value)) (cell w).
Proof.
  destruct (writable (localStorage (window w))) eqn:Hw.
  - now rewrite (setValue_stored _ _ _ _ Hw).
  - now rewrite (setValue_refused _ _ _ _ Hw).
Qed.

(** Calls through one callback: each writes what it computes from the
    [storedValue] the callback closed over. *)
Lemma batch_cell key storedValue values w :
  cell (batch (setValue key storedValue) values w)
  = writes (map (fun value => Literal (resolve storedValue value)) values)
           (cell w).
Proof.
  revert w; induction values as [|value rest IH]; intros w; [reflexivity|].
  cbn [batch map]. rewrite IH.
  now rewrite (proj2 (setValue_cell key storedValue value w)).
Qed.

(** What the render after such calls shows: the last call decides, and an
    updater among them has seen the value of the render before. *)
Lemma handle_shows key values w :
  read (cell (handle key values w))
  = match last values with
    | Some value => resolve (read (cell w)) value
    | None => pending (cell w)
    end.
Proof.
  unfold handle, commit, rendered_setValue. cbn [cell].
  rewrite read_rerender, batch_cell, pending_writes.
  destruct values as [|value rest _] using rev_ind; [reflexivity|].
  now rewrite map_app, fold_left_app, last_snoc.
Qed.

(** Literal values written in one batch do fold left to right. *)
Lemma handle_literals key (vs : list T) w :
  read (cell (handle key (map Literal vs) w))
  = fold_left resolve (map Literal vs) (pending (cell w)).
Proof.
  rewrite handle_shows.
  destruct vs as [|v rest _] using rev_ind; [reflexivity|].
  rewrite map_app; cbn [map]. now rewrite fold_left_app, last_snoc.
Qed.

End StorageFacts.

(** C2, at the input where it fails. Two calls [setValue(val => val + 1)]
    made through the callback of a render that showed 0: a left fold of the
    two updaters gives 2, the hook shows 1 at the next render, and the text
    of 1 is what it stores. The cell itself and the mutators of the counter
    do fold from left to right ([batch_left_fold], [useCounter_left_fold]),
    and so do literal values given to [setValue] ([handle_literals]). *)
Theorem useLocalStorage_setValue_sees_stale_value
  (J : Json Z) (key : string) (win : useLocalStorage.Window) :
  let w := useLocalStorage.mkWorld (useState 0%Z) win in
  let add_one := Updater (fun val => val + 1)%Z in
  let w' := useLocalStorage.handle key [add_one; add_one] w in
  fold_left resolve [add_one; add_one] (read (useLocalStorage.cell w)) = 2%Z
  /\ read (useLocalStorage.cell w') = 1%Z
  /\ useLocalStorage.items
       (useLocalStorage.localStorage (useLocalStorage.window w')) !! key
     = if useLocalStorage.writable (useLocalStorage.localStorage win)
       then Some (stringify 1%Z)
       else useLocalStorage.items (useLocalStorage.localStorage win) !! key.
Proof.
  cbv zeta. split; [reflexivity|]. split; [now rewrite handle_shows|].
  unfold useLocalStorage.handle, useLocalStorage.rendered_setValue.
  cbn [useLocalStorage.batch useLocalStorage.commit useLocalStorage.window
       useLocalStorage.cell read value useState].
  destruct (useLocalStorage.writable (useLocalStorage.localStorage win)) eqn:Hw.
  - rewrite (setValue_stored key 0%Z _ (useLocalStorage.mkWorld _ win) Hw).
    cbn [snd]. rewrite setValue_stored by exact Hw.
    cbn [snd useLocalStorage.window useLocalStorage.localStorage
         useLocalStorage.items resolve].
    now rewrite lookup_insert_eq.
  - rewrite (setValue_refused key 0%Z _ (useLocalStorage.mkWorld _ win) Hw).
    cbn [snd]. rewrite setValue_refused by exact Hw.
    reflexivity.
Qed.

Section StorageClaims.
Context {T : Type} `{Json T}.
Import useLocalStorage.
Implicit Types (w : World T) (win : Window).

Lemma initializer_unreadable key (initialValue : T) win :
  readable (localStorage win) = false ->
  initializer key initialValue win
  = (Normal initialValue,
     mkWindow (localStorage win)
       (console win ++ [(reading_message key, ErrorObject "SecurityError")])).
Proof.
  intros Hr. unfold initializer, try_catch, bind, getItem. now rewrite Hr.
Qed.

Lemma initializer_missing key (initialValue : T) win :
  readable (localStorage win) = true ->
  truthy (items (localStorage win) !! key) = false ->
  initializer key initialValue win = (Normal initialValue, win).
Proof.
  intros Hr Hk. unfold initializer, try_catch, bind, getItem.
  now rewrite Hr, Hk.
Qed.

Lemma initializer_unparsable key (initialValue : T) win text :
  readable (localStorage win) = true ->
  items (localStorage win) !! key = Some text ->
  text <> EmptyString ->
  parse text = None ->
  initializer key initialValue win
  = (Normal initialValue,
     mkWindow (localStorage win)
       (console win ++ [(reading_message key, ErrorObject "SyntaxError")])).
Proof.
  intros Hr Hk Hne Hp. unfold initializer, try_catch, bind, getItem, JSON_parse.
  rewrite Hr, Hk. destruct text as [|c text']; [congruence|].
  change (default EmptyString (Some (String c text'))) with (String c text').
  cbn [truthy]. now rewrite Hp.
Qed.

(** An empty text under the key counts as no item. *)
Lemma initializer_empty key (initialValue : T) win :
  readable (localStorage win) = true ->
  items (localStorage win) !! key = Some EmptyString ->
  initializer key initialValue win = (Normal initialValue, win).
Proof.
  intros Hr Hk. apply initializer_missing; [exact Hr|]. now rewrite Hk.
Qed.

Lemma initializer_parsed key (initialValue v : T) win text :
  readable (localStorage win) = true ->
  items (localStorage win) !! key = Some text ->
  text <> EmptyString ->
  parse text = Some v ->
  initializer key initialValue win = (Normal v, win).
Proof.
  intros Hr Hk Hne Hp. unfold initializer, try_catch, bind, getItem, JSON_parse.
  rewrite Hr, Hk. destruct text as [|c text']; [congruence|].
  change (default EmptyString (Some (String c text'))) with (String c text').
  cbn [truthy]. now rewrite Hp.
Qed.

(** The initializer never lets an exception out. *)
Lemma initializer_returns key (initialValue : T) win :
  returns (initializer key initialValue) win.
Proof.
  destruct (readable (localStorage win)) eqn:Hr.
  - destruct (items (localStorage win) !! key) as [text|] eqn:Hk.
    + destruct text as [|c text'] eqn:Ht.
      * exists initialValue. rewrite initializer_missing; [easy|easy|].
        now rewrite Hk.
      * destruct (parse text) as [v|] eqn:Hp; subst text.
        -- exists v. now rewrite (initializer_parsed _ _ v _ _ Hr Hk).
        -- exists initialValue.
           now rewrite (initializer_unparsable _ _ _ _ Hr Hk).
    + exists initialValue. rewrite initializer_missing; [easy|easy|].
      now rewrite Hk.
  - exists initialValue. now rewrite initializer_unreadable.
Qed.

(** C3, amended. A value [v] written with [setValue] is what a fresh
    instance under the same key starts with, whatever default it is given,
    when the store takes the item and hands it back and [v] survives the
    trip through its JSON text. When the store cannot be read, holds
    nothing under the key, or holds a text that does not parse, the
    instance starts with the default it was given, and nothing is thrown. *)
Theorem useLocalStorage_round_trip key (v initialValue : T) w :
  (faithful v ->
   writable (localStorage (window w)) = true ->
   readable (localStorage (window w)) = true ->
   useLocalStorage key initialValue (window (handle key [Literal v] w))
   = (Normal (useState v), window (handle key [Literal v] w)))
  /\ (forall win,
        readable (localStorage win) = false ->
        fst (useLocalStorage key initialValue win)
        = Normal (useState initialValue))
  /\ (forall win,
        readable (localStorage win) = true ->
        items (localStorage win) !! key = None ->
        useLocalStorage key initialValue win
        = (Normal (useState initialValue), win))
  /\ (forall win text,
        readable (localStorage win) = true ->
        items (localStorage win) !! key = Some text ->
        parse text = None ->
        fst (useLocalStorage key initialValue win)
        = Normal (useState initialValue))
  /\ (forall win, returns (useLocalStorage key initialValue) win).
Proof.
  split; [|split; [|split; [|split]]].
  - intros [Hparse Hne] Hw Hr.
    unfold handle, rendered_setValue. cbn [batch commit window].
    rewrite setValue_stored by exact Hw. cbn [snd window].
    unfold useLocalStorage, bind.
    rewrite (initializer_parsed key initialValue v _ (stringify v));
      cbn [localStorage readable items]; try easy.
    now rewrite lookup_insert_eq.
  - intros win Hr. unfold useLocalStorage, bind.
    now rewrite initializer_unreadable.
  - intros win Hr Hk. unfold useLocalStorage, bind.
    rewrite initializer_missing; [easy|easy|]. now rewrite Hk.
  - intros win text Hr Hk Hp. unfold useLocalStorage, bind.
    destruct text as [|c text'].
    + now rewrite initializer_empty.
    + now rewrite (initializer_unparsable _ _ _ _ Hr Hk).
  - intros win. destruct (initializer_returns key initialValue win) as [x Hx].
    exists (useState x). unfold useLocalStorage, bind.
    destruct (initializer key initialValue win) as [[a|e] win'];
      cbn [fst] in Hx; [now inversion Hx | discriminate].
Qed.

(** C5. Every call of [setValue] queues the new value in the state cell
    and returns normally. When the store takes the item, the JSON text of
    that value is what the store then holds under the key; when [setItem]
    throws, the store is as it was, the failure is logged, and the queued
    value stays: the next render shows it. *)
Theorem useLocalStorage_setValue_persists key (storedValue : T)
  (value : SetStateAction T) w :
  let v := resolve storedValue value in
  let w' := snd (setValue key storedValue value w) in
  fst (setValue key storedValue value w) = Normal tt
  /\ cell w' = write (Literal v) (cell w)
  /\ read (cell (commit w')) = v
  /\ (writable (localStorage (window w)) = true ->
      items (localStorage (window w')) !! key = Some (stringify v)
      /\ (forall other, other <> key ->
            items (localStorage (window w')) !! other
            = items (localStorage (window w)) !! other)
      /\ console (window w') = console (window w))
  /\ (writable (localStorage (window w)) = false ->
      localStorage (window w') = localStorage (window w)
      /\ console (window w')
         = console (window w)
           ++ [(setting_message key, ErrorObject "QuotaExceededError")]).
Proof.
  cbv zeta.
  destruct (setValue_cell key storedValue value w) as [Hret Hcell].
  split; [exact Hret|]. split; [exact Hcell|].
  split.
  { unfold commit. cbn [cell]. rewrite Hcell, read_rerender.
    now rewrite pending_write. }
  split; intros Hw.
  - rewrite setValue_stored by exact Hw.
    cbn [snd window localStorage items console].
    split; [now rewrite lookup_insert_eq|].
    split; [|reflexivity].
    intros other Hne. now rewrite lookup_insert_ne.
  - rewrite setValue_refused by exact Hw. now cbn.
Qed.

End StorageClaims.

(** C3, as the claim has it, fails in two ways. A store that refuses the
    item: "dark" is written, [setItem] throws, and a fresh instance starts
    with its default "light". A value that its JSON text does not give
    back: undefined is written to a store that works, the text stored does
    not parse, and a fresh instance starts with its default. *)
Lemma useLocalStorage_round_trip_fails :
  (let w := useLocalStorage.handle "theme" [Literal "dark"] (theme full_window) in
   read (useLocalStorage.cell w) = "dark"
   /\ fst (useLocalStorage.useLocalStorage "theme" "light"
             (useLocalStorage.window w))
      = Normal (useState "light"))
  /\ (let w := useLocalStorage.handle "theme" [Literal None]
                 (optional_theme fresh_window) in
      read (useLocalStorage.cell w) = None
      /\ useLocalStorage.items
           (useLocalStorage.localStorage (useLocalStorage.window w)) !! "theme"
         = Some "undefined"
      /\ fst (useLocalStorage.useLocalStorage "theme" (Some "light")
                (useLocalStorage.window w))
         = Normal (useState (Some "light"))).
Proof. cbv zeta. repeat split; vm_compute; reflexivity. Qed.

Lemma useLocalStorage_round_trip_witness :
  faithful "dark"
  /\ useLocalStorage.useLocalStorage "theme" "light"
       (useLocalStorage.window
          (useLocalStorage.handle "theme" [Literal "dark"] (theme fresh_window)))
     = (Normal (useState "dark"),
        useLocalStorage.window
          (useLocalStorage.handle "theme" [Literal "dark"] (theme fresh_window)))
  /\ fst (useLocalStorage.useLocalStorage "theme" "light" locked_window)
     = Normal (useState "light")
  /\ useLocalStorage.useLocalStorage "theme" "light" fresh_window
     = (Normal (useState "light"), fresh_window)
  /\ fst (useLocalStorage.useLocalStorage "theme" "light" garbled_window)
     = Normal (useState "light").
Proof.
  pose proof (useLocalStorage_round_trip "theme" "dark" "light"
                (theme fresh_window)) as (Htrip & Hlocked & Hmissing & Hgarbled & _).
  split; [apply json_string_faithful|].
  split; [apply Htrip; [apply json_string_faithful | reflexivity | reflexivity]|].
  split; [apply Hlocked; reflexivity|].
  split; [apply Hmissing; reflexivity|].
  apply (Hgarbled garbled_window "{oops"); reflexivity.
Defined.

Lemma useLocalStorage_setValue_persists_witness :
  read (useLocalStorage.cell (useLocalStorage.commit
    (snd (useLocalStorage.setValue "theme" "light" (Literal "dark")
            (theme full_window))))) = "dark"
  /\ useLocalStorage.console (useLocalStorage.window
       (snd (useLocalStorage.setValue "theme" "light" (Literal "dark")
               (theme full_window))))
     = [(useLocalStorage.setting_message "theme",
         ErrorObject "QuotaExceededError")]
  /\ useLocalStorage.items (useLocalStorage.localStorage
       (useLocalStorage.window
          (snd (useLocalStorage.setValue "theme" "light" (Literal "dark")
                  (theme fresh_window))))) !! "theme"
     = Some (stringify "dark").
Proof.
  pose proof (useLocalStorage_setValue_persists "theme" "light"
                (Literal "dark") (theme full_window)) as Hfull.
  pose proof (useLocalStorage_setValue_persists "theme" "light"
                (Literal "dark") (theme fresh_window)) as Hfresh.
  cbv zeta in Hfull, Hfresh.
  split; [apply Hfull|].
  split.
  - apply (proj2 (proj2 (proj2 (proj2 Hfull)))). reflexivity.
  - apply (proj1 (proj2 (proj2 (proj2 Hfresh)))). reflexivity.
Defined.

(** ** useForm *)

Section FormFacts.
Context {V : Type}.
Import useForm.
Implicit Types (s : State V) (vals initialValues : gmap string V)
  (errs seen : gmap string (option string)) (f g name : string).

Lemma commit_rendered s :
  commit s = rendered (pending (values s)) (pending (errors s)).
Proof. reflexivity. Qed.


Lemma get_insert_eq errs name e : get (<[name := e]> errs) name = e.
Proof. unfold get. now rewrite lookup_insert_eq. Qed.

Lemma get_insert_ne errs f g e : f <> g -> get (<[f := e]> errs) g = get errs g.
Proof. intros Hne. unfold get. now rewrite lookup_insert_ne. Qed.

Lemma pending_values_setValue seen name (value : V) s :
  pending (values (setValue seen name value s))
  = <[name := value]> (pending (values s)).
Proof.
  unfold setValue. destruct (truthy (get seen name));
    cbn [setErrors setValues values]; now rewrite pending_write.
Qed.

Lemma pending_errors_setValue seen name (value : V) s :
  pending (errors (setValue seen name value s))
  = if truthy (get seen name)
    then <[name := None]> (pending (errors s))
    else pending (errors s).
Proof.
  unfold setValue. destruct (truthy (get seen name));
    cbn [setErrors setValues errors]; [now rewrite pending_write | easy].
Qed.

Lemma event_SetValue initialValues vals errs name (value : V) :
  event initialValues (rendered vals errs) (SetValue name value)
  = rendered (<[name := value]> vals)
      (if truthy (get errs name) then <[name := None]> errs else errs).
Proof.
  unfold event, handle. cbn [fold_left invoke].
  rewrite commit_rendered, pending_values_setValue, pending_errors_setValue.
  reflexivity.
Qed.







(** The same two calls made through the callbacks of one render: the
    callback has seen no error under the field and leaves the new one. *)
Lemma useForm_same_render_keeps_error initialValues vals (v : V) :
  get (read (errors (handle initialValues
         [SetError "email" "x"; SetValue "email" v] (rendered vals ∅))))
      "email"
  = Some "x".
Proof.
  unfold handle. cbn [fold_left invoke rendered errors read useState value].
  rewrite commit_rendered. cbn [errors rendered read useState value].
  rewrite pending_errors_setValue.
  change (get ∅ "email") with (@None string). cbn [truthy].
  unfold setError, setErrors. cbn [errors]. rewrite pending_write.
  cbn [resolve]. apply get_insert_eq.
Qed.

(** C10. [setValue(f, v)] leaves the error of every other field as it is,
    and when the callback has seen no (truthy) error under [f] it makes no
    call of [setErrors] at all: the error cell, and so the whole mapping,
    is as it was. This holds for any callback and any queued updates, and
    in particular for a call through the callbacks of the latest render. *)
Theorem useForm_setValue_frame seen f g (v : V) s initialValues vals errs :
  (f <> g ->
   pending (errors (setValue seen f v s)) !! g = pending (errors s) !! g
   /\ read (errors (event initialValues (rendered vals errs) (SetValue f v))) !! g
      = errs !! g)
  /\ (truthy (get seen f) = false ->
      errors (setValue seen f v s) = errors s)
  /\ (truthy (get errs f) = false ->
      read (errors (event initialValues (rendered vals errs) (SetValue f v)))
      = errs).
Proof.
  split; [|split].
  - intros Hne. rewrite pending_errors_setValue, event_SetValue.
    cbn [errors rendered read useState value].
    split.
    + destruct (truthy (get seen f)); [now rewrite lookup_insert_ne | easy].
    + destruct (truthy (get errs f)); [now rewrite lookup_insert_ne | easy].
  - intros Ht. unfold setValue. now rewrite Ht.
  - intros Ht. rewrite event_SetValue, Ht. reflexivity.
Qed.

End FormFacts.

Lemma useForm_setValue_frame_witness :
  "email" <> "password"
  /\ useForm.truthy (useForm.get login_errors "email") = false
  /\ read (useForm.errors
       (useForm.event login_form (useForm.rendered login_form login_errors)
          (useForm.SetValue "email" "a@b.com"))) !! "password"
     = Some (Some "Password is required")
  /\ useForm.errors
       (useForm.setValue login_errors "email" "a@b.com"
          (useForm.rendered login_form login_errors))
     = useForm.errors (useForm.rendered login_form login_errors)
  /\ read (useForm.errors
       (useForm.event login_form (useForm.rendered login_form login_errors)
          (useForm.SetValue "email" "a@b.com")))
     = login_errors.
Proof.
  assert (Hne : "email" <> "password") by discriminate.
  assert (Ht : useForm.truthy (useForm.get login_errors "email") = false)
    by reflexivity.
  pose proof (useForm_setValue_frame login_errors "email" "password" "a@b.com"
                (useForm.rendered login_form login_errors)
                login_form login_form login_errors) as (Hother & Hcell & Hall).
  split; [exact Hne|]. split; [exact Ht|].
  split; [rewrite (proj2 (Hother Hne)); reflexivity|].
  split; [exact (Hcell Ht) | exact (Hall Ht)].
Defined.

(** ** useDebounce *)

Section DebounceFacts.
Context {T : Type} `{EqDecision T}.
Import useDebounce.
Implicit Types (s : State T) (e : event T) (es : list (event T)).

Lemma owned_useDebounce now (value : T) delay :
  owned (useDebounce now value delay).
Proof.
  intros id t. unfold useDebounce, effect, setTimeout. cbn.
  rewrite insert_empty. intros [-> _]%lookup_singleton_Some. reflexivity.
Qed.

Lemma armed_useDebounce now (value : T) delay :
  armed (useDebounce now value delay) 0 (now + delay) value.
Proof. split; [reflexivity|]. cbn. apply insert_empty. Qed.

(** Clearing the one timer the hook owns leaves none. *)
Lemma owned_cleanup_empty s : owned s -> timers (cleanup s) = ∅.
Proof.
  intros Ho. apply map_empty; intros id. unfold cleanup.
  destruct (handler s) as [h|] eqn:Hh; cbn.
  - destruct (decide (h = id)) as [->|Hne].
    + apply lookup_delete_eq.
    + rewrite lookup_delete_ne by exact Hne.
      destruct (timers s !! id) as [t|] eqn:Ht; [|reflexivity].
      apply Ho in Ht. congruence.
  - destruct (timers s !! id) as [t|] eqn:Ht; [|reflexivity].
    apply Ho in Ht. congruence.
Qed.

(** Every change of the arguments clears the pending timer and sets a new
    one. *)
Lemma step_Render_reschedules s h now (value : T) delay :
  owned s -> handler s = Some h -> (value, delay) <> deps s ->
  let s' := step s (Render now value delay) in
  armed s' (next_id s) (now + delay) value
  /\ deps s' = (value, delay)
  /\ debouncedValue s' = debouncedValue s.
Proof.
  intros Ho Hh Hd. cbn [step]. rewrite Hh.
  destruct (decide ((value, delay) = deps s)) as [Heq|_]; [contradiction|].
  unfold effect, setTimeout. cbn.
  rewrite (owned_cleanup_empty s Ho), insert_empty.
  assert (Hn : next_id (cleanup s) = next_id s).
  { unfold cleanup. now rewrite Hh. }
  assert (Hc : debouncedValue (cleanup s) = debouncedValue s).
  { unfold cleanup. now rewrite Hh. }
  rewrite Hn, Hc. repeat split.
Qed.

Lemma step_Render_same s now (value : T) delay :
  (value, delay) = deps s -> step s (Render now value delay) = s.
Proof.
  intros Hd. cbn [step]. destruct (handler s); [|reflexivity].
  destruct (decide ((value, delay) = deps s)); [reflexivity|contradiction].
Qed.

Lemma step_Fire_early s id at_ (v : T) now h :
  armed s id at_ v -> now < at_ -> step s (Fire now h) = s.
Proof.
  intros [_ Ht] Hlt. cbn [step]. rewrite Ht.
  destruct (decide (id = h)) as [->|Hne].
  - rewrite lookup_singleton_eq. cbn [due].
    destruct (Nat.leb_spec at_ now); [lia|reflexivity].
  - now rewrite lookup_singleton_ne.
Qed.

Lemma step_Fire_other s id at_ (v : T) now h :
  armed s id at_ v -> h <> id -> step s (Fire now h) = s.
Proof.
  intros [_ Ht] Hne. cbn [step]. rewrite Ht.
  rewrite lookup_singleton_ne; [reflexivity|congruence].
Qed.

Lemma step_Fire_due s id at_ (v : T) now :
  armed s id at_ v -> at_ <= now ->
  let s' := step s (Fire now id) in
  read (debouncedValue s') = v /\ timers s' = ∅ /\ handler s' = Some id.
Proof.
  intros [Hh Ht] Hle. cbn [step]. rewrite Ht, lookup_singleton_eq. cbn [due].
  destruct (Nat.leb_spec at_ now); [|lia].
  unfold commit, setDebouncedValue, clearTimeout. cbn.
  rewrite Ht, delete_singleton_eq, fold_left_app.
  repeat split. exact Hh.
Qed.

Lemma step_idle s e :
  timers s = ∅ -> is_fire e -> step s e = s.
Proof.
  intros Ht He. destruct e as [| now id |]; try contradiction.
  cbn [step]. now rewrite Ht, lookup_empty.
Qed.

Lemma step_Unmount_clears s now :
  owned s ->
  timers (step s (Unmount now)) = ∅ /\ handler (step s (Unmount now)) = None
  /\ debouncedValue (step s (Unmount now)) = debouncedValue s.
Proof.
  intros Ho. cbn [step]. cbn. split; [now apply owned_cleanup_empty|].
  split; [reflexivity|]. unfold cleanup. now destruct (handler s).
Qed.

(** Once the component is gone nothing changes what the hook showed. *)
Lemma step_unmounted s e :
  handler s = None -> timers s = ∅ ->
  let s' := step s e in
  handler s' = None /\ timers s' = ∅
  /\ debouncedValue s' = debouncedValue s.
Proof.
  intros Hh Ht. destruct e as [now value delay | now id | now]; cbn [step].
  - now rewrite Hh.
  - now rewrite Ht, lookup_empty.
  - unfold cleanup. rewrite Hh. cbn. auto.
Qed.

Lemma owned_step s e : owned s -> owned (step s e).
Proof.
  intros Ho. destruct e as [now value delay | now id | now].
  - destruct (handler s) as [h|] eqn:Hh; [|cbn [step]; now rewrite Hh].
    destruct (decide ((value, delay) = deps s)) as [Hd|Hd].
    + now rewrite step_Render_same.
    + destruct (step_Render_reschedules s h now value delay Ho Hh Hd)
        as ([Hh' Ht'] & _).
      intros id t. rewrite Ht'. intros [<- _]%lookup_singleton_Some.
      exact Hh'.
  - cbn [step]. destruct (timers s !! id) as [t|] eqn:Ht; [|exact Ho].
    destruct (due t <=? now); [|exact Ho].
    intros id' t'. cbn. intros Hl.
    apply lookup_delete_Some in Hl as [_ Hl]. now apply Ho in Hl.
  - destruct (step_Unmount_clears s now Ho) as (Ht & _).
    intros id t. now rewrite Ht, lookup_empty.
Qed.

Lemma fresh_step s e : fresh s -> fresh (step s e).
Proof.
  intros Hf. destruct e as [now value delay | now id | now]; cbn [step].
  - destruct (handler s) as [h|] eqn:Hh; [|exact Hf].
    destruct (decide ((value, delay) = deps s)); [exact Hf|].
    intros id. unfold effect, setTimeout, cleanup. rewrite Hh. cbn.
    intros [= <-]. lia.
  - destruct (timers s !! id) as [t|]; [|exact Hf].
    destruct (due t <=? now); [|exact Hf].
    intros id'. cbn. apply Hf.
  - intros id. cbn. discriminate.
Qed.

Lemma fresh_run es s : fresh s -> fresh (run s es).
Proof.
  revert s; induction es as [|e es IH]; intros s Hf; [exact Hf|].
  cbn [run fold_left]. apply IH. now apply fresh_step.
Qed.

Lemma fresh_useDebounce now (value : T) delay :
  fresh (useDebounce now value delay).
Proof. intros id. cbn. intros [= <-]. lia. Qed.

Lemma owned_run es s : owned s -> owned (run s es).
Proof.
  revert s; induction es as [|e es IH]; intros s Ho; [exact Ho|].
  cbn [run fold_left]. apply IH. now apply owned_step.
Qed.

End DebounceFacts.

Section DebounceBurst.
Context {T : Type} `{EqDecision T}.
Import useDebounce.
Implicit Types (s : State T) (e : event T) (es : list (event T)).

Lemma observe_cons s e es :
  observe s (e :: es)
  = (time_of e, read (debouncedValue (step s e))) :: observe (step s e) es.
Proof. reflexivity. Qed.

Lemma run_cons s e es : run s (e :: es) = run (step s e) es.
Proof. reflexivity. Qed.

Lemma armed_owned s id at_ (v : T) : armed s id at_ v -> owned s.
Proof.
  intros [Hh Ht] id' t. rewrite Ht.
  intros [<- _]%lookup_singleton_Some. exact Hh.
Qed.

Lemma owned_unmounted s : owned s -> handler s = None -> timers s = ∅.
Proof.
  intros Ho Hh. apply map_empty; intros id.
  destruct (timers s !! id) as [t|] eqn:Ht; [|reflexivity].
  apply Ho in Ht. congruence.
Qed.

(** With no timer pending, the host looking at its timers shows nothing
    new. *)
Lemma observe_idle es s now :
  timers s = ∅ -> Forall is_fire es -> chronological now es ->
  forall t x, In (t, x) (observe s es) ->
              x = read (debouncedValue s) /\ now <= t.
Proof.
  revert s now; induction es as [|e es IH]; intros s now Ht Hf Hc t x Hin;
    [contradiction|].
  inversion Hf as [|? ? He Hf']; subst. destruct Hc as [Hle Hc].
  rewrite observe_cons in Hin. rewrite (step_idle s e Ht He) in Hin.
  destruct Hin as [[<- <-]%pair_equal_spec|Hin]; [now split|].
  destruct (IH s (time_of e) Ht Hf' Hc t x Hin) as [-> Hle']. split; [easy|lia].
Qed.

Lemma observe_unmounted es s :
  handler s = None -> timers s = ∅ ->
  forall t x, In (t, x) (observe s es) -> x = read (debouncedValue s).
Proof.
  revert s; induction es as [|e es IH]; intros s Hh Ht t x Hin;
    [contradiction|].
  destruct (step_unmounted s e Hh Ht) as (Hh' & Ht' & Hd).
  rewrite observe_cons in Hin. destruct Hin as [[<- <-]%pair_equal_spec|Hin]; [now rewrite Hd|].
  rewrite <- Hd. exact (IH (step s e) Hh' Ht' t x Hin).
Qed.

(** Once [delay] has passed since the last update, a burst has no further
    update. *)
Lemma burst_over delay last (prev : T) now es :
  chronological now es -> burst delay last prev es -> last + delay <= now ->
  Forall is_fire es /\ last_update last prev es = (last, prev).
Proof.
  revert now; induction es as [|e es IH]; intros now Hc Hb Hle; [now split|].
  destruct Hc as [Hnow Hc].
  destruct e as [now' value d | now' id | now']; cbn [burst time_of] in *.
  - destruct Hb as (_ & _ & Hlt & _). lia.
  - destruct (IH now' Hc Hb) as [Hf Hl]; [lia|].
    split; [constructor; [exact I | exact Hf] | exact Hl].
  - contradiction.
Qed.

(** While the burst lasts the hook shows what it showed before; what it
    shows afterwards is the last value, and not before [delay] has passed
    since the last update. *)
Lemma observe_armed delay es :
  forall s id last (prev : T) now,
    armed s id (last + delay) prev -> deps s = (prev, delay) ->
    chronological now es -> burst delay last prev es ->
    forall t x, In (t, x) (observe s es) ->
      x = read (debouncedValue s)
      \/ (x = snd (last_update last prev es)
          /\ fst (last_update last prev es) + delay <= t).
Proof.
  induction es as [|e es IH]; intros s id last prev now Ha Hd Hc Hb t x Hin;
    [contradiction|].
  destruct Hc as [Hnow Hc].
  destruct e as [now' value d | now' h | now']; cbn [burst time_of] in *.
  - destruct Hb as (-> & Hv & Hlt & Hb).
    destruct (step_Render_reschedules s id now' value delay) as (Ha' & Hd' & Hcell).
    { now apply armed_owned in Ha. }
    { apply Ha. }
    { rewrite Hd. congruence. }
    rewrite observe_cons in Hin. destruct Hin as [[<- <-]%pair_equal_spec|Hin].
    + left. now rewrite Hcell.
    + cbn [last_update]. rewrite <- Hcell.
      exact (IH _ _ now' value now' Ha' Hd' Hc Hb t x Hin).
  - cbn [last_update] in *. rewrite observe_cons in Hin.
    destruct (decide (h = id)) as [->|Hne].
    + destruct (Nat.lt_ge_cases now' (last + delay)) as [Hearly|Hdue].
      * rewrite (step_Fire_early s id _ prev now' id Ha Hearly) in Hin.
        destruct Hin as [[<- <-]%pair_equal_spec|Hin]; [now left|].
        exact (IH s id last prev now' Ha Hd Hc Hb t x Hin).
      * destruct (burst_over delay last prev now' es Hc Hb Hdue) as [Hf ->].
        destruct (step_Fire_due s id _ prev now' Ha Hdue) as (Hv & Ht & _).
        right. cbn [fst snd].
        destruct Hin as [[<- <-]%pair_equal_spec|Hin]; [now split|].
        destruct (observe_idle es _ now' Ht Hf Hc t x Hin) as [-> Hle].
        split; [exact Hv | lia].
    + rewrite (step_Fire_other s id _ prev now' h Ha Hne) in Hin.
      destruct Hin as [[<- <-]%pair_equal_spec|Hin]; [now left|].
      exact (IH s id last prev now' Ha Hd Hc Hb t x Hin).
  - contradiction.
Qed.

(** At the end of the burst the hook either waits for the timer of the
    last update or has shown the last value already. *)
Lemma run_armed delay es :
  forall s id last (prev : T) now,
    armed s id (last + delay) prev -> deps s = (prev, delay) ->
    chronological now es -> burst delay last prev es ->
    let s' := run s es in
    (read (debouncedValue s') = read (debouncedValue s)
     /\ exists id', armed s' id' (fst (last_update last prev es) + delay)
                          (snd (last_update last prev es)))
    \/ (read (debouncedValue s') = snd (last_update last prev es)
        /\ timers s' = ∅).
Proof.
  induction es as [|e es IH]; intros s id last prev now Ha Hd Hc Hb.
  { left. split; [reflexivity|]. now exists id. }
  destruct Hc as [Hnow Hc]. cbn zeta. rewrite run_cons.
  destruct e as [now' value d | now' h | now']; cbn [burst time_of] in *.
  - destruct Hb as (-> & Hv & Hlt & Hb).
    destruct (step_Render_reschedules s id now' value delay) as (Ha' & Hd' & Hcell).
    { now apply armed_owned in Ha. }
    { apply Ha. }
    { rewrite Hd. congruence. }
    cbn [last_update]. rewrite <- Hcell.
    exact (IH _ _ now' value now' Ha' Hd' Hc Hb).
  - cbn [last_update].
    destruct (decide (h = id)) as [->|Hne].
    + destruct (Nat.lt_ge_cases now' (last + delay)) as [Hearly|Hdue].
      * rewrite (step_Fire_early s id _ prev now' id Ha Hearly).
        exact (IH s id last prev now' Ha Hd Hc Hb).
      * destruct (burst_over delay last prev now' es Hc Hb Hdue) as [Hf ->].
        destruct (step_Fire_due s id _ prev now' Ha Hdue) as (Hv & Ht & _).
        right. cbn [fst snd].
        assert (Hrun : forall s0, timers s0 = ∅ -> run s0 es = s0).
        { clear -Hf. induction Hf as [|e es He _ IHf]; intros s0 Ht0; [easy|].
          rewrite run_cons, (step_idle s0 e Ht0 He). now apply IHf. }
        rewrite (Hrun _ Ht). now split.
    + rewrite (step_Fire_other s id _ prev now' h Ha Hne).
      exact (IH s id last prev now' Ha Hd Hc Hb).
  - contradiction.
Qed.

End DebounceBurst.

Section DebounceClaim.
Context {T : Type} `{EqDecision T}.
Import useDebounce.

(** C7. During a burst of updates of the source, each less than [delay]
    after the one before, the hook goes on showing what it showed before
    the burst; the only new value it ever shows is the last one of the
    burst, and it shows it no sooner than [delay] after the last update: at
    the end the hook has shown that value or waits for the one timer that
    will show it. Every change of the arguments clears the pending timer
    and sets a new one, and unmounting clears the pending timer, after
    which nothing new is shown. *)
Theorem useDebounce_burst_shows_only_last_value
  (t0 : nat) (v0 : T) (delay0 : nat) (pre : list (event T))
  (delay t1 : nat) (v1 : T) (rest : list (event T)) :
  let s := run (useDebounce t0 v0 delay0) pre in
  let t_last := fst (last_update t1 v1 rest) in
  let v_last := snd (last_update t1 v1 rest) in
  let s' := run s (Render t1 v1 delay :: rest) in
  (v1 <> fst (deps s) -> chronological t1 rest -> burst delay t1 v1 rest ->
   (forall t x,
      In (t, x) (observe s (Render t1 v1 delay :: rest)) ->
      x = read (debouncedValue s) \/ (x = v_last /\ t_last + delay <= t))
   /\ (handler s <> None ->
       (read (debouncedValue s') = v_last /\ timers s' = ∅)
       \/ (read (debouncedValue s') = read (debouncedValue s)
           /\ exists id,
               armed s' id (t_last + delay) v_last
               /\ forall now,
                   t_last + delay <= now ->
                   read (debouncedValue (step s' (Fire now id))) = v_last)))
  /\ (forall h now v d,
        handler s = Some h -> (v, d) <> deps s ->
        armed (step s (Render now v d)) (next_id s) (now + d) v
        /\ timers (step s (Render now v d)) !! h = None)
  /\ (forall now,
        timers (step s (Unmount now)) = ∅
        /\ forall es t x,
             In (t, x) (observe (step s (Unmount now)) es) ->
             x = read (debouncedValue s)).
Proof.
  cbv zeta. set (s := run (useDebounce t0 v0 delay0) pre).
  assert (Ho : owned s) by apply owned_run, owned_useDebounce.
  split; [|split].
  - intros Hv Hc Hb.
    destruct (handler s) as [h|] eqn:Hh.
    + destruct (step_Render_reschedules s h t1 v1 delay Ho Hh)
        as (Ha & Hd & Hcell).
      { destruct (deps s) as [v d]. cbn [fst] in Hv. congruence. }
      split.
      * intros t x Hin. rewrite observe_cons in Hin.
        destruct Hin as [[<- <-]%pair_equal_spec|Hin]; [left; now rewrite Hcell|].
        rewrite <- Hcell.
        exact (observe_armed delay rest _ _ t1 v1 t1 Ha Hd Hc Hb t x Hin).
      * intros _. rewrite run_cons.
        destruct (run_armed delay rest _ _ t1 v1 t1 Ha Hd Hc Hb)
          as [(Hsame & id & Harmed)|Hshown].
        -- right. split; [now rewrite Hsame, Hcell|].
           exists id. split; [exact Harmed|].
           intros now Hnow.
           now destruct (step_Fire_due _ id _ _ now Harmed Hnow).
        -- now left.
    + split; [|congruence].
      intros t x Hin. left.
      exact (observe_unmounted _ s Hh (owned_unmounted s Ho Hh) t x Hin).
  - intros h now v d Hh Hd.
    destruct (step_Render_reschedules s h now v d Ho Hh Hd) as (Ha & _).
    split; [exact Ha|].
    destruct Ha as [_ ->]. apply lookup_singleton_ne.
    assert (Hf : fresh s) by apply fresh_run, fresh_useDebounce.
    apply Hf in Hh. lia.
  - intros now. destruct (step_Unmount_clears s now Ho) as (Ht & Hh & Hcell).
    split; [exact Ht|].
    intros es t x Hin. rewrite <- Hcell.
    exact (observe_unmounted es _ Hh Ht t x Hin).
Qed.

End DebounceClaim.

Example useDebounce_typing_observed :
  useDebounce.observe (useDebounce.useDebounce 0 EmptyString 5)
    (useDebounce.Render 3 "r" 5 :: typing)
  = [(3, EmptyString); (6, EmptyString); (7, EmptyString);
     (11, EmptyString); (12, "re")].
Proof. vm_compute. reflexivity. Qed.

Lemma useDebounce_burst_shows_only_last_value_witness :
  let s := useDebounce.useDebounce 0 EmptyString 5 in
  "r" <> fst (useDebounce.deps s)
  /\ useDebounce.chronological 3 typing
  /\ useDebounce.burst 5 3 "r" typing
  /\ In (12, "re") (useDebounce.observe s (useDebounce.Render 3 "r" 5 :: typing))
  /\ ("re" = EmptyString \/ ("re" = "re" /\ 7 + 5 <= 12))
  /\ useDebounce.armed (useDebounce.step s (useDebounce.Render 3 "r" 5)) 1 8 "r"
  /\ useDebounce.timers (useDebounce.step s (useDebounce.Render 3 "r" 5)) !! 0
     = None.
Proof.
  cbv zeta.
  assert (H1 : "r" <> fst (useDebounce.deps
                             (useDebounce.useDebounce 0 EmptyString 5)))
    by discriminate.
  assert (H2 : useDebounce.chronological 3 typing) by (cbn; lia).
  assert (H3 : useDebounce.burst 5 3 "r" typing).
  { cbn. repeat split; [discriminate | lia]. }
  assert (H4 : In (12, "re")
                 (useDebounce.observe (useDebounce.useDebounce 0 EmptyString 5)
                    (useDebounce.Render 3 "r" 5 :: typing))).
  { rewrite useDebounce_typing_observed. cbn. tauto. }
  pose proof (useDebounce_burst_shows_only_last_value
                0 EmptyString 5 [] 5 3 "r" typing) as (Hburst & Hchange & _).
  cbv zeta in Hburst, Hchange.
  repeat (split; [assumption|]).
  split; [exact (proj1 (Hburst H1 H2 H3) 12 "re" H4)|].
  apply (Hchange 0 3 "r" 5); [reflexivity | discriminate].
Defined.

(** ** useWindowSize *)

Section WindowSizeFacts.
Import useWindowSize.
Implicit Types (b : Browser) (w : World) (sizes : list (N * N)).

Lemma current_addEventListener f b :
  current (addEventListener f b) = current b.
Proof. unfold addEventListener. now destruct (decide (f ∈ listeners b)). Qed.

Lemma tracking_useWindowSize b : tracking (useWindowSize b).
Proof.
  unfold tracking, useWindowSize, effect. cbn [browser hook windowSize handleResize].
  rewrite current_addEventListener.
  split; [|split; reflexivity].
  exists (functions b). split; [reflexivity|].
  unfold addEventListener. cbn.
  destruct (decide (functions b ∈ listeners b)) as [Hin|Hnin]; cbn.
  - exact Hin.
  - apply elem_of_app. right. apply list_elem_of_singleton. reflexivity.
Qed.

Lemma tracking_Resize w width height :
  tracking w -> tracking (step w (Resize width height)).
Proof.
  intros ((f & Hf & Hin) & _ & _). cbn [step]. rewrite Hf.
  destruct (decide (f ∈ listeners (browser w))) as [_|Hnin]; [|contradiction].
  split; [|split].
  - exists f. split; [exact Hf | exact Hin].
  - cbn. unfold pending. cbn. now rewrite fold_left_app.
  - cbn. now rewrite fold_left_app.
Qed.

Lemma tracking_resizes sizes w :
  tracking w -> tracking (run w (resizes sizes)).
Proof.
  revert w; induction sizes as [|[width height] sizes IH]; intros w Ht;
    [exact Ht|].
  cbn [resizes map run fold_left]. apply IH. now apply tracking_Resize.
Qed.

Lemma browser_Resize w width height :
  listeners (browser (step w (Resize width height))) = listeners (browser w)
  /\ functions (browser (step w (Resize width height)))
     = functions (browser w)
  /\ handleResize (hook (step w (Resize width height)))
     = handleResize (hook w)
  /\ current (browser (step w (Resize width height))) = mkSize width height.
Proof.
  cbn [step]. destruct (handleResize (hook w)) as [f|] eqn:Hf;
    [|cbn; repeat split; auto].
  destruct (decide (f ∈ listeners (browser w))); cbn; repeat split; auto.
Qed.

Lemma browser_resizes sizes w :
  listeners (browser (run w (resizes sizes))) = listeners (browser w)
  /\ functions (browser (run w (resizes sizes))) = functions (browser w)
  /\ handleResize (hook (run w (resizes sizes))) = handleResize (hook w)
  /\ current (browser (run w (resizes sizes)))
     = match last sizes with
       | Some size => mkSize (fst size) (snd size)
       | None => current (browser w)
       end.
Proof.
  revert w; induction sizes as [|[width height] sizes IH]; intros w;
    [now repeat split|].
  change (run w (resizes ((width, height) :: sizes)))
    with (run (step w (Resize width height)) (resizes sizes)).
  destruct (IH (step w (Resize width height))) as (Hl & Hn & Hh & Hc).
  destruct (browser_Resize w width height) as (Hl' & Hn' & Hh' & Hc').
  repeat split; [congruence | congruence | congruence |].
  rewrite Hc, last_cons. destruct (last sizes); [reflexivity | exact Hc'].
Qed.

(** X1: while the component is mounted the hook shows the size the window has
    now, however often the window has been resized. *)
Theorem useWindowSize_tracks_window b sizes :
  let w := run (useWindowSize b) (resizes sizes) in
  read (windowSize (hook w)) = current (browser w)
  /\ read (windowSize (hook w))
     = match last sizes with
       | Some size => mkSize (fst size) (snd size)
       | None => current b
       end.
Proof.
  cbv zeta.
  destruct (tracking_resizes sizes _ (tracking_useWindowSize b)) as (_ & _ & Hr).
  split; [exact Hr|]. rewrite Hr.
  destruct (browser_resizes sizes (useWindowSize b)) as (_ & _ & _ & ->).
  destruct (last sizes); [reflexivity|].
  unfold useWindowSize, effect, addEventListener. cbn.
  now destruct (decide (functions b ∈ listeners b)).
Qed.

Lemma filter_fresh (l : list nat) (f : nat) :
  Forall (fun g => g < f) l -> filter (fun g => g <> f) (l ++ [f]) = l.
Proof.
  intros Hl. rewrite filter_app.
  assert (Hs : filter (fun g => g <> f) [f] = []).
  { cbn. destruct (decide (f <> f)); [contradiction | reflexivity]. }
  rewrite Hs, app_nil_r.
  induction Hl as [|g l Hg _ IH]; [reflexivity|].
  rewrite filter_cons. destruct (decide (g <> f)) as [_|Heq]; [now rewrite IH|].
  exfalso. apply Heq. lia.
Qed.

Lemma step_stranger w width height f :
  handleResize (hook w) = Some f -> f ∉ listeners (browser w) ->
  let w' := step w (Resize width height) in
  read (windowSize (hook w')) = pending (windowSize (hook w))
  /\ listeners (browser w') = listeners (browser w)
  /\ handleResize (hook w') = Some f.
Proof.
  intros Hf Hnin. cbn [step]. rewrite Hf.
  destruct (decide (f ∈ listeners (browser w))); [contradiction|].
  now repeat split.
Qed.

(** X2: mounting adds one listener, after those that were there; unmounting
    gives the list back as it was, and from then on no resize changes what
    the hook showed last. *)
Theorem useWindowSize_unmount_removes_listener b sizes later :
  well_formed b ->
  let mounted := run (useWindowSize b) (resizes sizes) in
  let gone := run mounted (Unmount :: resizes later) in
  listeners (browser mounted) = listeners b ++ [functions b]
  /\ listeners (browser gone) = listeners b
  /\ read (windowSize (hook gone)) = read (windowSize (hook mounted)).
Proof.
  intros Hwf. cbv zeta.
  destruct (browser_resizes sizes (useWindowSize b)) as (Hl & _ & Hh & _).
  assert (Hfresh : functions b ∉ listeners b).
  { intros Hin. unfold well_formed in Hwf. rewrite Forall_forall in Hwf.
    apply Hwf in Hin. lia. }
  assert (Hmount : listeners (browser (useWindowSize b))
                   = listeners b ++ [functions b]).
  { unfold useWindowSize, effect, addEventListener. cbn.
    now destruct (decide (functions b ∈ listeners b)). }
  rewrite Hl, Hmount. split; [reflexivity|].
  set (mounted := run (useWindowSize b) (resizes sizes)) in *.
  assert (Hq : pending (windowSize (hook mounted))
               = read (windowSize (hook mounted))).
  { destruct (tracking_resizes sizes _ (tracking_useWindowSize b))
      as (_ & Hp & Hr). fold mounted in Hp, Hr. congruence. }
  change (run mounted (Unmount :: resizes later))
    with (run (step mounted Unmount) (resizes later)).
  assert (Hstep : handleResize (hook (step mounted Unmount)) = Some (functions b)
                  /\ listeners (browser (step mounted Unmount)) = listeners b
                  /\ windowSize (hook (step mounted Unmount))
                     = windowSize (hook mounted)).
  { assert (Hh2 : handleResize (hook mounted) = Some (functions b))
      by (rewrite Hh; reflexivity).
    cbn [step]. unfold cleanup. rewrite Hh2.
    cbn [browser hook removeEventListener listeners].
    split; [exact Hh2|].
    split; [|reflexivity].
    rewrite Hl, Hmount. now apply filter_fresh. }
  destruct Hstep as (Hh' & Hl' & Hc').
  assert (Hi : ignored (step mounted Unmount) (functions b)
                 (read (windowSize (hook mounted)))).
  { repeat split; [exact Hh' | now rewrite Hl' | now rewrite Hc' | ].
    rewrite Hc'. reflexivity. }
  clear Hc' Hh' Hq.
  generalize dependent (step mounted Unmount).
  induction later as [|[width height] later IH]; intros w Hl' Hi.
  - split; [exact Hl' | apply Hi].
  - change (run w (resizes ((width, height) :: later)))
      with (run (step w (Resize width height)) (resizes later)).
    destruct Hi as (Hf & Hnin & Hp & Hr).
    destruct (step_stranger w width height _ Hf Hnin) as (Hr' & Hl'' & Hf').
    apply IH; [congruence|].
    repeat split; [exact Hf' | now rewrite Hl'' | | congruence].
    cbn [step]. rewrite Hf.
    destruct (decide (functions b ∈ listeners (browser w))); [contradiction|].
    exact Hp.
Qed.

End WindowSizeFacts.

Lemma useWindowSize_unmount_removes_listener_witness :
  useWindowSize.well_formed demo_browser
  /\ useWindowSize.listeners (useWindowSize.browser
       (useWindowSize.run (useWindowSize.useWindowSize demo_browser)
          (useWindowSize.resizes [(800, 600)%N])))
     = [0; 1; 2]
  /\ useWindowSize.listeners (useWindowSize.browser
       (useWindowSize.run
          (useWindowSize.run (useWindowSize.useWindowSize demo_browser)
             (useWindowSize.resizes [(800, 600)%N]))
          (useWindowSize.Unmount :: useWindowSize.resizes [(640, 480)%N])))
     = [0; 1].
Proof.
  assert (Hwf : useWindowSize.well_formed demo_browser).
  { repeat constructor. }
  pose proof (useWindowSize_unmount_removes_listener demo_browser
                [(800, 600)%N] [(640, 480)%N] Hwf) as (Hm & Hg & _).
  split; [exact Hwf|]. split; [exact Hm | exact Hg].
Defined.

(** ** The form of the demo and its validation *)

Section ValidateFacts.
Import CustomHooksDemo.
Implicit Types (vals : gmap string string)
  (errs : gmap string (option string)) (l : list string).

Lemma act_Validate vals errs l time :
  act (showing vals errs l) (Validate time)
  = showing vals
      ((if decide (vals !! "password" = vals !! "confirmPassword")
        then (fun e => e)
        else <["confirmPassword" := Some "Passwords do not match"]>)
         ((if blank (vals !! "password")
           then <["password" := Some "Password is required"]>
           else (fun e => e))
            ((if blank (vals !! "email")
              then <["email" := Some "Email is required"]>
              else (fun e => e)) errs)))
      (if valid vals then l ++ [(time ++ ": Form validation passed!")%string]
       else l).
Proof.
  unfold act, validateForm, valid, showing.
  cbn [form logs useForm.rendered useForm.values read value useState].
  destruct (blank (vals !! "email"));
    destruct (blank (vals !! "password"));
    destruct (decide (vals !! "password" = vals !! "confirmPassword")) as [He|He];
    rewrite ?(bool_decide_eq_true_2 _ He), ?(bool_decide_eq_false_2 _ He);
    reflexivity.
Qed.

Lemma act_Type vals errs l name value :
  act (showing vals errs l) (Type_ name value)
  = showing (<[name := value]> vals)
      (if useForm.truthy (useForm.get errs name)
       then <[name := None]> errs else errs)
      l.
Proof.
  unfold act, showing, commit. cbn [form logs].
  change (read (useForm.errors (useForm.rendered vals errs))) with errs.
  pose proof (event_SetValue (V:=string) initialValues vals errs name value) as E.
  unfold useForm.event, useForm.handle in E. cbn [fold_left useForm.invoke] in E.
  change (read (useForm.errors (useForm.rendered vals errs))) with errs in E.
  now rewrite E.
Qed.

(** X3: what a click on Validate does to a form that shows [vals] and [errs]:
    the line that validation passed is logged exactly when the email and the
    password are not empty and the two passwords are equal; each rule that
    fails records its message; no other error is touched, so a form that is
    valid keeps every error it showed; the values stay. *)
Theorem validateForm_outcome vals errs l time :
  let s := act (showing vals errs l) (Validate time) in
  let errors := read (useForm.errors (form s)) in
  read (logs s)
  = (if valid vals then l ++ [(time ++ ": Form validation passed!")%string]
     else l)
  /\ read (useForm.values (form s)) = vals
  /\ useForm.get errors "email"
     = (if blank (vals !! "email") then Some "Email is required"
        else useForm.get errs "email")
  /\ useForm.get errors "password"
     = (if blank (vals !! "password") then Some "Password is required"
        else useForm.get errs "password")
  /\ useForm.get errors "confirmPassword"
     = (if decide (vals !! "password" = vals !! "confirmPassword")
        then useForm.get errs "confirmPassword"
        else Some "Passwords do not match")
  /\ (forall name,
        name <> "email" -> name <> "password" -> name <> "confirmPassword" ->
        errors !! name = errs !! name)
  /\ (valid vals = true -> errors = errs).
Proof.
  cbv zeta. rewrite act_Validate.
  cbn [form logs showing useForm.rendered useForm.values useForm.errors
       read value useState].
  split; [reflexivity|]. split; [reflexivity|].
  unfold valid, useForm.get.
  destruct (blank (vals !! "email"));
    destruct (blank (vals !! "password"));
    destruct (decide (vals !! "password" = vals !! "confirmPassword")) as [He|He];
    rewrite ?(bool_decide_eq_true_2 _ He), ?(bool_decide_eq_false_2 _ He);
    cbn [negb andb]; cbv beta;
    repeat split; intros; simplify_map_eq; done.
Qed.

Lemma validateForm_outcome_witness :
  valid (filled "a@b.com" "secret" "secret") = true
  /\ read (useForm.errors (form
       (act (showing (filled "a@b.com" "secret" "secret") login_errors [])
            (Validate "10:00:00"))))
     = login_errors
  /\ read (useForm.errors (form
       (act (showing (filled "a@b.com" "secret" "secret") login_errors [])
            (Validate "10:00:00")))) !! "name"
     = login_errors !! "name".
Proof.
  pose proof (validateForm_outcome (filled "a@b.com" "secret" "secret")
                login_errors [] "10:00:00") as (_ & _ & _ & _ & _ & Hframe & Hvalid).
  cbv zeta in Hframe, Hvalid.
  split; [reflexivity|]. split; [apply Hvalid; reflexivity|].
  apply Hframe; discriminate.
Defined.

(** X4: a mismatch of the passwords that is repaired by typing into the
    password field leaves its message behind: the second validation logs
    that it passed while [errors.confirmPassword] still says that the
    passwords do not match. *)
Theorem validateForm_leaves_stale_mismatch email password confirmPassword
  l time1 time2 :
  email <> EmptyString -> confirmPassword <> EmptyString ->
  password <> confirmPassword ->
  let s := acts (showing (filled email password confirmPassword) ∅ l)
             [Validate time1; Type_ "password" confirmPassword;
              Validate time2] in
  read (logs s) = l ++ [(time2 ++ ": Form validation passed!")%string]
  /\ useForm.get (read (useForm.errors (form s))) "confirmPassword"
     = Some "Passwords do not match"
  /\ read (useForm.values (form s)) !! "password" = Some confirmPassword
  /\ read (useForm.values (form s)) !! "confirmPassword" = Some confirmPassword.
Proof.
  intros He Hc Hne. cbv zeta. unfold acts. cbn [fold_left].
  rewrite act_Validate, act_Type, act_Validate.
  unfold filled, valid, useForm.get.
  destruct email as [|e0 email']; [congruence|].
  destruct confirmPassword as [|c0 conf']; [congruence|].
  simplify_map_eq.
  assert (Hno : Some password <> Some (String c0 conf')) by congruence.
  rewrite bool_decide_eq_true_2 by reflexivity.
  rewrite (bool_decide_eq_false_2 _ Hno), andb_false_r.
  destruct (decide (Some password = Some (String c0 conf'))) as [Heq|_];
    [contradiction|].
  split; [reflexivity|].
  split; [|now split].
  destruct password as [|p0 password']; cbv beta; simplify_map_eq; reflexivity.
Qed.

Lemma validateForm_leaves_stale_mismatch_witness :
  let s := acts (showing (filled "a@b.com" "secret" "secert") ∅ [])
             [Validate "10:00:00"; Type_ "password" "secert";
              Validate "10:00:05"] in
  "a@b.com" <> EmptyString /\ "secert" <> EmptyString /\ "secret" <> "secert"
  /\ read (logs s) = ["10:00:05: Form validation passed!"]
  /\ useForm.get (read (useForm.errors (form s))) "confirmPassword"
     = Some "Passwords do not match".
Proof.
  cbv zeta.
  assert (H1 : "a@b.com" <> EmptyString) by discriminate.
  assert (H2 : "secert" <> EmptyString) by discriminate.
  assert (H3 : "secret" <> "secert") by discriminate.
  pose proof (validateForm_leaves_stale_mismatch "a@b.com" "secret" "secert"
                [] "10:00:00" "10:00:05" H1 H2 H3) as (Hl & He & _).
  split; [exact H1|]. split; [exact H2|]. split; [exact H3|].
  split; [exact Hl | exact He].
Defined.

End ValidateFacts.

(** ** The log of the previous count *)

Section CountingFacts.
Import CustomHooksDemo.
Implicit Types (s : Counting) (m : useCounter.mutator).

Lemma renders_settles fuel time s :
  has_updates (render_pass time s) = false ->
  renders fuel time s = render_pass time s.
Proof. intros Hu. destruct fuel; cbn [renders]; [reflexivity | now rewrite Hu]. Qed.

Lemma renders_again fuel time s :
  has_updates (render_pass time s) = true ->
  renders (S fuel) time s = renders fuel time (render_pass time s).
Proof. intros Hu. cbn [renders]. now rewrite Hu. Qed.

Lemma settled_shape s :
  settled s ->
  exists c l p,
    s = mkCounting (mkCell c []) (usePrevious.mkRef (Some c)) (mkCell l [])
                   (Some (c, p)).
Proof.
  destruct s as [[c qc] [r] [l ql] d]. unfold settled. cbn.
  intros (-> & -> & -> & p & ->). now exists c, l, p.
Qed.

Lemma settled_mount fuel time :
  settled (mount_counting fuel time)
  /\ read (counter1 (mount_counting fuel time)) = 0%Z
  /\ read (log_cell (mount_counting fuel time)) = [].
Proof.
  unfold mount_counting. rewrite renders_settles by reflexivity.
  split; [|split; reflexivity].
  repeat split. now exists None.
Qed.

(** A render that no click caused logs nothing. *)
Lemma happen_Other fuel time s :
  settled s ->
  settled (happen fuel s (Other time))
  /\ read (counter1 (happen fuel s (Other time))) = read (counter1 s)
  /\ read (log_cell (happen fuel s (Other time))) = read (log_cell s).
Proof.
  intros (c & l & p & ->)%settled_shape. cbn [happen].
  assert (Hp : render_pass time
                 (mkCounting (mkCell c []) (usePrevious.mkRef (Some c))
                             (mkCell l []) (Some (c, p)))
               = mkCounting (mkCell c []) (usePrevious.mkRef (Some c))
                            (mkCell l []) (Some (c, Some c))).
  { unfold render_pass, log_previous. cbn.
    destruct (decide (Some (c, p) = Some (c, Some c))); [reflexivity|].
    destruct (decide (c = c)); [reflexivity | contradiction]. }
  rewrite renders_settles by (now rewrite Hp). rewrite Hp.
  split; [|split; reflexivity].
  repeat split. now exists (Some c).
Qed.

(** A click logs one line when it changes the count, and none when it
    does not; two renders later nothing is queued any more. *)
Lemma happen_Click fuel time m s :
  1 <= fuel -> settled s ->
  let c := read (counter1 s) in
  let c' := useCounter.effect 0 m c in
  let s' := happen fuel s (Click time m) in
  settled s'
  /\ read (counter1 s') = c'
  /\ read (log_cell s')
     = if decide (c' = c) then read (log_cell s)
       else read (log_cell s)
            ++ [(time ++ ": " ++ previous_message c c')%string].
Proof.
  intros Hfuel (c & l & p & ->)%settled_shape. cbv zeta.
  cbn [counter1 log_cell read value previous effect_deps happen].
  set (c' := useCounter.effect 0 m c).
  assert (Hpend : pending (useCounter.call 0 m (mkCell c [])) = c').
  { now rewrite useCounter_pending_call. }
  set (s0 := mkCounting (useCounter.call 0 m (mkCell c []))
               (usePrevious.mkRef (Some c)) (mkCell l []) (Some (c, p))).
  destruct (decide (c' = c)) as [Heq|Hne].
  - assert (Hp : render_pass time s0
                 = mkCounting (mkCell c' []) (usePrevious.mkRef (Some c'))
                              (mkCell l []) (Some (c', Some c))).
    { unfold render_pass, log_previous, s0, rerender.
      cbn [counter1 log_cell previous effect_deps usePrevious.usePrevious
           usePrevious.effect usePrevious.current read value].
      rewrite Hpend. change (pending (mkCell l [])) with l.
      destruct (decide (Some (c, p) = Some (c', Some c))); [reflexivity|].
      destruct (decide (c = c')); [reflexivity | congruence]. }
    rewrite renders_settles by (now rewrite Hp). rewrite Hp.
    split; [|split; reflexivity].
    repeat split. now exists (Some c).
  - set (entry := (time ++ ": " ++ previous_message c c')%string).
    assert (Hp : render_pass time s0
                 = mkCounting (mkCell c' []) (usePrevious.mkRef (Some c'))
                     (addLog time (previous_message c c') (mkCell l []))
                     (Some (c', Some c))).
    { unfold render_pass, log_previous, s0, rerender.
      cbn [counter1 log_cell previous effect_deps usePrevious.usePrevious
           usePrevious.effect usePrevious.current read value].
      rewrite Hpend. change (pending (mkCell l [])) with l.
      destruct (decide (Some (c, p) = Some (c', Some c))) as [Hd|_];
        [congruence|].
      destruct (decide (c = c')); [congruence | reflexivity]. }
    destruct fuel as [|fuel]; [lia|].
    rewrite renders_again by (now rewrite Hp). rewrite Hp.
    assert (Hp2 : render_pass time
                    (mkCounting (mkCell c' []) (usePrevious.mkRef (Some c'))
                       (addLog time (previous_message c c') (mkCell l []))
                       (Some (c', Some c)))
                  = mkCounting (mkCell c' []) (usePrevious.mkRef (Some c'))
                      (mkCell (l ++ [entry]) []) (Some (c', Some c'))).
    { unfold render_pass, log_previous.
      cbn [counter1 log_cell previous effect_deps usePrevious.usePrevious
           usePrevious.effect usePrevious.current read value].
      change (rerender (mkCell c' [])) with (mkCell c' []).
      change (rerender (addLog time (previous_message c c') (mkCell l [])))
        with (mkCell (l ++ [entry]) []).
      cbn [read value].
      destruct (decide (Some (c', Some c) = Some (c', Some c'))) as [Hd|_];
        [congruence|].
      destruct (decide (c' = c')); [reflexivity | contradiction]. }
    rewrite renders_settles by (now rewrite Hp2). rewrite Hp2.
    split; [|split; reflexivity].
    repeat split. now exists (Some c').
Qed.

Lemma settled_happenings fuel s hs :
  1 <= fuel -> settled s -> settled (happenings fuel s hs).
Proof.
  intros Hfuel. revert s; induction hs as [|h hs IH]; intros s Hs; [exact Hs|].
  cbn [happenings fold_left]. apply IH.
  destruct h as [time m|time].
  - now apply happen_Click.
  - now apply happen_Other.
Qed.

(** X5: whatever has happened since the component was mounted, a click on a
    button of the first counter that changes the count adds exactly one
    line to the logs, naming the count before and the count after; a click
    that leaves the count as it is and a render for any other reason add
    none; and the first render logs nothing. *)
Theorem previous_count_logged_once fuel time0 hs time m :
  1 <= fuel ->
  let s := happenings fuel (mount_counting fuel time0) hs in
  let c := read (counter1 s) in
  let c' := useCounter.effect 0 m c in
  read (log_cell (mount_counting fuel time0)) = []
  /\ read (counter1 (happen fuel s (Click time m))) = c'
  /\ read (log_cell (happen fuel s (Click time m)))
     = (if decide (c' = c) then read (log_cell s)
        else read (log_cell s)
             ++ [(time ++ ": " ++ previous_message c c')%string])
  /\ has_updates (happen fuel s (Click time m)) = false
  /\ read (log_cell (happen fuel s (Other time))) = read (log_cell s).
Proof.
  intros Hfuel. cbv zeta.
  destruct (settled_mount fuel time0) as (Hm & _ & Hl0).
  pose proof (settled_happenings fuel _ hs Hfuel Hm) as Hs.
  destruct (happen_Click fuel time m _ Hfuel Hs) as (Hs' & Hc & Hl).
  destruct (happen_Other fuel time _ Hs) as (_ & _ & Ho).
  repeat split; try assumption.
  destruct Hs' as (Hq1 & Hq2 & _). unfold has_updates. now rewrite Hq1, Hq2.
Qed.

End CountingFacts.

Example previous_count_logged_sample :
  read (CustomHooksDemo.log_cell
    (CustomHooksDemo.happenings 2 (CustomHooksDemo.mount_counting 2 "09:00:00")
       [CustomHooksDemo.Click "09:00:01" useCounter.Increment;
        CustomHooksDemo.Other "09:00:02";
        CustomHooksDemo.Click "09:00:03" useCounter.Reset;
        CustomHooksDemo.Click "09:00:04" useCounter.Reset;
        CustomHooksDemo.Click "09:00:05" useCounter.Decrement]))
  = ["09:00:01: Previous count: 0, Current count: 1";
     "09:00:03: Previous count: 1, Current count: 0";
     "09:00:05: Previous count: 0, Current count: -1"].
Proof. vm_compute. reflexivity. Qed.

Lemma previous_count_logged_once_witness :
  1 <= 2
  /\ read (CustomHooksDemo.log_cell
       (CustomHooksDemo.happen 2
          (CustomHooksDemo.happenings 2
             (CustomHooksDemo.mount_counting 2 "09:00:00") [])
          (CustomHooksDemo.Click "09:00:01" useCounter.Increment)))
     = ["09:00:01: Previous count: 0, Current count: 1"].
Proof.
  split; [lia|].
  exact (proj1 (proj2 (proj2 (previous_count_logged_once 2 "09:00:00" []
                                "09:00:01" useCounter.Increment
                                (le_S 1 1 (le_n 1)))))).
Defined.

(** ** What batches of calls amount to *)

Lemma useCounter_calls_cons initialValue m ms count :
  useCounter.calls initialValue (m :: ms) count
  = useCounter.calls initialValue ms (useCounter.call initialValue m count).
Proof. reflexivity. Qed.

Lemma useCounter_calls_bound initialValue ms :
  forall count,
    (Z.abs (pending (useCounter.calls initialValue ms count))
     <= Z.max (Z.abs initialValue) (Z.abs (pending count))
        + Z.of_nat (length ms))%Z.
Proof.
  induction ms as [|m ms IH]; intros count.
  - cbn [useCounter.calls fold_left length]. lia.
  - rewrite useCounter_calls_cons.
    specialize (IH (useCounter.call initialValue m count)).
    rewrite useCounter_pending_call in IH.
    cbn [length]. destruct m; cbn [useCounter.effect] in IH; lia.
Qed.

(** X6: calls of the counter's functions made before the next render, for
    whole counts that the calls cannot take beyond 2^53 in size: the count
    becomes the count of the render, or [initialValue] when [reset] was
    among the calls, plus the increments and less the decrements made
    since; and after every one of the calls the count is within the range
    where the sums of the language are exact. *)
Theorem useCounter_net_effect initialValue ms count :
  Trace.exact_range initialValue ms -> Trace.exact_range (pending count) ms ->
  read (rerender (useCounter.calls initialValue ms count))
  = match Trace.since_reset ms with
    | Some tail => (initialValue + Trace.balance tail)%Z
    | None => (pending count + Trace.balance ms)%Z
    end
  /\ forall k,
       (Z.abs (pending (useCounter.calls initialValue (take k ms) count))
        <= 2 ^ 53)%Z.
Proof.
  intros Hinit Hcount. split.
  - clear Hinit Hcount. rewrite read_rerender.
    revert count; induction ms as [|m ms IH]; intros count.
    + cbn. lia.
    + rewrite useCounter_calls_cons, IH, useCounter_pending_call.
      cbn [Trace.since_reset].
      destruct (Trace.since_reset ms) as [tail|]; [reflexivity|].
      destruct m; cbn [useCounter.effect Trace.balance]; lia.
  - intros k.
    pose proof (useCounter_calls_bound initialValue (take k ms) count) as Hk.
    rewrite length_take in Hk.
    unfold Trace.exact_range in Hinit, Hcount. lia.
Qed.

Lemma useCounter_net_effect_witness :
  Trace.exact_range 10 [useCounter.Increment; useCounter.Reset;
                  useCounter.Decrement; useCounter.Decrement]
  /\ Trace.exact_range (pending (useCounter.useCounter 10))
       [useCounter.Increment; useCounter.Reset;
        useCounter.Decrement; useCounter.Decrement]
  /\ read (rerender (useCounter.calls 10
             [useCounter.Increment; useCounter.Reset;
              useCounter.Decrement; useCounter.Decrement]
             (useCounter.useCounter 10)))
     = 8%Z.
Proof.
  assert (H : Trace.exact_range 10 [useCounter.Increment; useCounter.Reset;
                              useCounter.Decrement; useCounter.Decrement])
    by (unfold Trace.exact_range; cbn [length]; lia).
  split; [exact H|]. split; [exact H|].
  exact (proj1 (useCounter_net_effect 10 _ (useCounter.useCounter 10) H H)).
Defined.

Lemma useToggle_calls_cons m ms value :
  useToggle.calls (m :: ms) value = useToggle.calls ms (useToggle.call m value).
Proof. reflexivity. Qed.

(** X7: calls of the toggle's functions made before the next render: the value
    becomes the one the last [setTrue] or [setFalse] gave, or else the
    value of the render, flipped when the toggles made since are odd in
    number. In particular [n] toggles flip the value exactly when [n] is
    odd. *)
Theorem useToggle_net_effect ms value :
  read (rerender (useToggle.calls ms value))
  = xorb (default (pending value) (Trace.last_set ms)) (Trace.flips ms)
  /\ forall n,
       read (rerender (useToggle.calls (repeat useToggle.Toggle n) value))
       = if Nat.even n then pending value else negb (pending value).
Proof.
  assert (Hgen : forall ms value,
             pending (useToggle.calls ms value)
             = xorb (default (pending value) (Trace.last_set ms))
                    (Trace.flips ms)).
  { clear. induction ms as [|m ms IH]; intros value.
    - cbn. now rewrite xorb_false_r.
    - rewrite useToggle_calls_cons, IH, useToggle_pending_call.
      cbn [Trace.last_set Trace.flips].
      destruct (Trace.last_set ms) as [b|]; [reflexivity|].
      destruct m; cbn [useToggle.effect default from_option];
        [|reflexivity|reflexivity].
      destruct (pending value), (Trace.flips ms); reflexivity. }
  rewrite !read_rerender. split; [apply Hgen|].
  intros n. rewrite read_rerender.
  revert value; induction n as [n IH] using (well_founded_induction lt_wf).
  intros value. destruct n as [|[|n]]; [reflexivity | |].
  - cbn [repeat]. rewrite useToggle_calls_cons. cbn [useToggle.calls fold_left].
    now rewrite useToggle_pending_call.
  - cbn [repeat]. rewrite !useToggle_calls_cons, IH by lia.
    rewrite !useToggle_pending_call. cbn [useToggle.effect useToggle.call].
    rewrite negb_involutive. reflexivity.
Qed.

(** ** useLocalStorage: several keys, several writes *)

Section StorageMore.
Context {T : Type} `{Json T}.
Import useLocalStorage.
Implicit Types (w : World T) (win : Window).

(** What the initializer returns depends on whether the store can be read
    and on the item under its key, and on nothing else. *)
Lemma initializer_depends key (initialValue : T) win win' :
  readable (localStorage win) = readable (localStorage win') ->
  items (localStorage win) !! key = items (localStorage win') !! key ->
  fst (initializer key initialValue win) = fst (initializer key initialValue win').
Proof.
  intros Hr Hk. unfold initializer, try_catch, bind, getItem, JSON_parse.
  rewrite <- Hr, <- Hk.
  destruct (readable (localStorage win)); [|reflexivity].
  destruct (items (localStorage win) !! key) as [[|c text]|]; cbn;
    [reflexivity | | reflexivity].
  change (default EmptyString (Some (String c text))) with (String c text).
  destruct (parse (String c text)); reflexivity.
Qed.

Lemma setValue_window key storedValue (value : SetStateAction T) w :
  let w' := snd (setValue key storedValue value w) in
  readable (localStorage (window w')) = readable (localStorage (window w))
  /\ writable (localStorage (window w')) = writable (localStorage (window w))
  /\ (forall other, other <> key ->
        items (localStorage (window w')) !! other
        = items (localStorage (window w)) !! other)
  /\ (writable (localStorage (window w)) = true ->
      items (localStorage (window w')) !! key
      = Some (stringify (resolve storedValue value))).
Proof.
  cbv zeta. destruct (writable (localStorage (window w))) eqn:Hw.
  - rewrite setValue_stored by exact Hw. cbn.
    repeat split; [exact Hw | | ].
    + intros other Hne. now rewrite lookup_insert_ne.
    + intros _. now rewrite lookup_insert_eq.
  - rewrite setValue_refused by exact Hw. cbn.
    repeat split; [exact Hw | discriminate].
Qed.

Lemma batch_window key storedValue (values : list (SetStateAction T)) w :
  let w' := batch (setValue key storedValue) values w in
  readable (localStorage (window w')) = readable (localStorage (window w))
  /\ writable (localStorage (window w')) = writable (localStorage (window w))
  /\ (forall other, other <> key ->
        items (localStorage (window w')) !! other
        = items (localStorage (window w)) !! other)
  /\ (writable (localStorage (window w)) = true ->
      items (localStorage (window w')) !! key
      = match last values with
        | Some value => Some (stringify (resolve storedValue value))
        | None => items (localStorage (window w)) !! key
        end).
Proof.
  cbv zeta. revert w; induction values as [|value rest IH]; intros w.
  - now repeat split.
  - cbn [batch].
    destruct (setValue_window key storedValue value w) as (Hr & Hw & Ho & Hk).
    destruct (IH (snd (setValue key storedValue value w)))
      as (Hr' & Hw' & Ho' & Hk').
    repeat split; [congruence | congruence | |].
    + intros other Hne. rewrite Ho' by exact Hne. now apply Ho.
    + intros Hwr. rewrite Hk' by congruence. rewrite last_cons.
      destruct (last rest); [reflexivity | now apply Hk].
Qed.

(** X8: writing under one key changes nothing for a hook that uses another:
    after any calls of [setValue] for [key], a fresh instance under
    [other] starts with the value it would have started with before. *)
Theorem useLocalStorage_keys_independent key other (initialValue : T)
  (values : list (SetStateAction T)) w :
  other <> key ->
  fst (useLocalStorage other initialValue (window (handle key values w)))
  = fst (useLocalStorage other initialValue (window w)).
Proof.
  intros Hne.
  assert (Hi : fst (initializer other initialValue
                      (window (handle key values w)))
               = fst (initializer other initialValue (window w))).
  { unfold handle, rendered_setValue, commit. cbn [window].
    destruct (batch_window key (read (cell w)) values w) as (Hr & _ & Ho & _).
    apply initializer_depends; [exact Hr | now apply Ho]. }
  unfold useLocalStorage, bind.
  destruct (initializer other initialValue (window (handle key values w)))
    as [r1 win1], (initializer other initialValue (window w)) as [r2 win2].
  cbn [fst] in Hi. subst r2. now destruct r1.
Qed.

(** X9: on a store that takes items, memory and store agree after every event:
    whatever calls of [setValue] the handler made, updaters included, the
    text under the key is the JSON text of the value the next render shows;
    so a fresh instance under the key starts with that value when its text
    parses back. *)
Theorem useLocalStorage_store_follows_memory key (initialValue : T)
  (values : list (SetStateAction T)) w :
  writable (localStorage (window w)) = true ->
  values <> [] ->
  let w' := handle key values w in
  items (localStorage (window w')) !! key
  = Some (stringify (read (cell w')))
  /\ (readable (localStorage (window w)) = true ->
      faithful (read (cell w')) ->
      fst (useLocalStorage key initialValue (window w'))
      = Normal (useState (read (cell w')))).
Proof.
  intros Hw Hne. cbv zeta.
  assert (Hitem : items (localStorage (window (handle key values w))) !! key
                  = Some (stringify (read (cell (handle key values w))))).
  { rewrite handle_shows.
    unfold handle, rendered_setValue, commit. cbn [window].
    destruct (batch_window key (read (cell w)) values w) as (_ & _ & _ & Hk).
    rewrite (Hk Hw).
    destruct (last values) as [value|] eqn:Hl; [reflexivity|].
    apply last_None in Hl. contradiction. }
  split; [exact Hitem|].
  intros Hr [Hparse Hnonempty].
  unfold useLocalStorage, bind.
  rewrite (initializer_parsed key initialValue (read (cell (handle key values w)))
             _ (stringify (read (cell (handle key values w)))));
    [reflexivity | | exact Hitem | exact Hnonempty | exact Hparse].
  unfold handle, rendered_setValue, commit. cbn [window].
  destruct (batch_window key (read (cell w)) values w) as (Hr' & _).
  congruence.
Qed.

End StorageMore.

Lemma useLocalStorage_keys_independent_witness :
  "userName" <> "theme"
  /\ fst (useLocalStorage.useLocalStorage "userName" "nobody"
            (useLocalStorage.window
               (useLocalStorage.handle "theme" [Literal "dark"]
                  (theme garbled_window))))
     = fst (useLocalStorage.useLocalStorage "userName" "nobody"
              (useLocalStorage.window (theme garbled_window))).
Proof.
  assert (Hne : "userName" <> "theme") by discriminate.
  split; [exact Hne|].
  exact (useLocalStorage_keys_independent "theme" "userName" "nobody"
           [Literal "dark"] (theme garbled_window) Hne).
Defined.

Lemma useLocalStorage_store_follows_memory_witness :
  let values := [Updater (fun val => (val ++ "er")%string); Literal "dark";
                 Updater (fun val => (val ++ "est")%string)] in
  let w' := useLocalStorage.handle "theme" values (theme fresh_window) in
  values <> []
  /\ read (useLocalStorage.cell w') = "lightest"
  /\ useLocalStorage.items
       (useLocalStorage.localStorage (useLocalStorage.window w')) !! "theme"
     = Some (stringify "lightest")
  /\ fst (useLocalStorage.useLocalStorage "theme" "light"
            (useLocalStorage.window w'))
     = Normal (useState "lightest").
Proof.
  cbv zeta.
  set (values := [Updater (fun val => (val ++ "er")%string); Literal "dark";
                  Updater (fun val => (val ++ "est")%string)]).
  assert (Hne : values <> []) by discriminate.
  assert (Hread : read (useLocalStorage.cell
                          (useLocalStorage.handle "theme" values
                             (theme fresh_window))) = "lightest").
  { now rewrite handle_shows. }
  pose proof (useLocalStorage_store_follows_memory "theme" "light" values
                (theme fresh_window) eq_refl Hne) as (Hitem & Hfresh).
  cbv zeta in Hfresh. rewrite Hread in Hitem, Hfresh.
  split; [exact Hne|]. split; [exact Hread|]. split; [exact Hitem|].
  apply Hfresh; [reflexivity | apply json_string_faithful].
Defined.

(** ** useApi: what a sequence of events leaves *)

Section ApiMore.
Context {T : Type}.
Implicit Types (s : useApi.State T) (es : list (useApi.event T))
  (net : useApi.settled T).

Lemma useApi_run_snoc s es e :
  useApi.run s (es ++ [e]) = useApi.step (useApi.run s es) e.
Proof. unfold useApi.run. now rewrite fold_left_app. Qed.

(** After an event nothing is queued. *)
Lemma useApi_step_committed s e :
  pending (useApi.data (useApi.step s e))
  = useApi.view_data (useApi.view (useApi.step s e))
  /\ pending (useApi.error (useApi.step s e))
     = useApi.view_error (useApi.view (useApi.step s e)).
Proof. now split. Qed.

Lemma useApi_view_data_step s e :
  useApi.view_data (useApi.view (useApi.step s e))
  = match Trace.answer_of e with
    | Some r => Some r
    | None => pending (useApi.data s)
    end.
Proof.
  destruct e as [|net]; cbn [Trace.answer_of].
  - now rewrite useApi_view_Call.
  - now rewrite useApi_view_Settle.
Qed.

Lemma useApi_pending_data_run s es :
  pending (useApi.data (useApi.run s es))
  = match Trace.last_success es with
    | Some r => Some r
    | None => pending (useApi.data s)
    end.
Proof.
  revert s; induction es as [|e es IH]; intros s; [reflexivity|].
  change (useApi.run s (e :: es)) with (useApi.run (useApi.step s e) es).
  rewrite IH. destruct (useApi_step_committed s e) as [-> _].
  rewrite useApi_view_data_step.
  unfold Trace.last_success.
  change (omap Trace.answer_of (e :: es))
    with (match Trace.answer_of e with
          | Some r => r :: omap Trace.answer_of es
          | None => omap Trace.answer_of es
          end).
  destruct (Trace.answer_of e) as [r|]; [|reflexivity].
  rewrite last_cons. now destruct (last (omap Trace.answer_of es)).
Qed.

(** X10: the data the hook shows is the body of the last request that
    succeeded, in the order the answers arrived; a call, a failure or an
    earlier success never takes it away. *)
Theorem useApi_data_is_last_success s es :
  es <> [] ->
  useApi.view_data (useApi.view (useApi.run s es))
  = match Trace.last_success es with
    | Some r => Some r
    | None => pending (useApi.data s)
    end.
Proof.
  intros Hne. rewrite <- useApi_pending_data_run.
  destruct es as [|e es _] using rev_ind; [congruence|].
  rewrite useApi_run_snoc. reflexivity.
Qed.

Lemma useApi_run_one_by_one s net nets :
  useApi.run s (Trace.one_by_one (net :: nets))
  = useApi.run (useApi.step (useApi.step s useApi.Call) (useApi.Settle net))
               (Trace.one_by_one nets).
Proof. reflexivity. Qed.

(** X11: requests made one after the other: once the last has settled,
    [loading] is false and [error] tells how the last one went: its
    failure, or nothing when it succeeded, whatever the requests before it
    did. *)
Theorem useApi_one_by_one_shows_last s nets net :
  let s' := useApi.run s (Trace.one_by_one (nets ++ [net])) in
  useApi.view_loading (useApi.view s') = false
  /\ useApi.view_error (useApi.view s')
     = option_map useApi.describe (useApi.failure net)
  /\ (forall r, useApi.success net = Some r ->
        useApi.view s' = useApi.mkView (Some r) false None).
Proof.
  cbv zeta. unfold Trace.one_by_one. rewrite flat_map_app. cbn [flat_map].
  rewrite app_nil_r. unfold useApi.run. rewrite fold_left_app.
  cbn [fold_left].
  set (before := fold_left useApi.step
                   (flat_map (fun net => [useApi.Call; useApi.Settle net]) nets)
                   s).
  rewrite useApi_view_Settle.
  destruct (useApi_step_committed before useApi.Call) as [_ ->].
  rewrite useApi_view_Call. cbn [useApi.view_error useApi.view_loading].
  split; [reflexivity|]. split.
  - now destruct (useApi.failure net).
  - intros r Hr. rewrite Hr.
    destruct (useApi_failure_or_success net) as [(e & _ & Hn)|(r' & _ & Hf)];
      [congruence|]. now rewrite Hf.
Qed.

End ApiMore.

Lemma useApi_data_is_last_success_witness :
  [useApi.Call; useApi.Settle (answer 5); useApi.Call;
   useApi.Settle not_found; useApi.Call] <> []
  /\ useApi.view_data (useApi.view (useApi.run useApi.useApi
       [useApi.Call; useApi.Settle (answer 5); useApi.Call;
        useApi.Settle not_found; useApi.Call]))
     = Some 5.
Proof.
  split; [discriminate|].
  apply (useApi_data_is_last_success useApi.useApi
           [useApi.Call; useApi.Settle (answer 5); useApi.Call;
            useApi.Settle not_found; useApi.Call]).
  discriminate.
Defined.

Lemma useApi_one_by_one_shows_last_witness :
  useApi.success (answer 9) = Some 9
  /\ useApi.view (useApi.run useApi.useApi
       (Trace.one_by_one ([not_found; answer 5] ++ [answer 9])))
     = useApi.mkView (Some 9) false None.
Proof.
  split; [reflexivity|].
  apply (proj2 (proj2 (useApi_one_by_one_shows_last useApi.useApi
                         [not_found; answer 5] (answer 9)))).
  reflexivity.
Defined.

(** ** useDebounce: what every reachable state satisfies *)

Section DebounceMore.
Context {T : Type} `{EqDecision T}.
Import useDebounce.
Implicit Types (s : State T) (e : event T) (es : list (event T)).

Lemma owned_timers s :
  owned s ->
  timers s = ∅
  \/ exists id t, handler s = Some id /\ timers s = {[id := t]}.
Proof.
  intros Ho. destruct (handler s) as [h|] eqn:Hh.
  - destruct (timers s !! h) as [t|] eqn:Ht.
    + right. exists h, t. split; [reflexivity|].
      apply map_eq; intros id. destruct (decide (h = id)) as [<-|Hne].
      * now rewrite lookup_singleton_eq.
      * rewrite lookup_singleton_ne by exact Hne.
        destruct (timers s !! id) as [t'|] eqn:Ht'; [|reflexivity].
        apply Ho in Ht'. congruence.
    + left. apply map_empty; intros id.
      destruct (timers s !! id) as [t'|] eqn:Ht'; [|reflexivity].
      pose proof (Ho _ _ Ht'). congruence.
  - left. now apply owned_unmounted.
Qed.

(** X12: however the arguments change and whenever the host runs timers, the
    hook has at most one timer pending, the one its cleanup will clear, and
    none once the component is gone. *)
Theorem useDebounce_at_most_one_timer now (value : T) delay es :
  let s := run (useDebounce now value delay) es in
  (timers s = ∅
   \/ exists id t, handler s = Some id /\ timers s = {[id := t]})
  /\ size (timers s) <= 1
  /\ (handler s = None -> timers s = ∅).
Proof.
  cbv zeta. set (s := run (useDebounce now value delay) es).
  assert (Ho : owned s) by apply owned_run, owned_useDebounce.
  pose proof (owned_timers s Ho) as Ht.
  split; [exact Ht|]. split; [|now apply owned_unmounted].
  destruct Ht as [->|(id & t & _ & ->)].
  - rewrite map_size_empty. lia.
  - rewrite map_size_singleton. lia.
Qed.

Lemma synced_useDebounce now (value : T) delay :
  Trace.synced (useDebounce now value delay).
Proof.
  split.
  - intros id t. cbn. rewrite insert_empty.
    now intros [_ <-]%lookup_singleton_Some.
  - intros _. cbn. rewrite insert_empty. intros Hempty.
    apply (f_equal (fun m => m !! 0)) in Hempty.
    rewrite lookup_singleton_eq, lookup_empty in Hempty. discriminate.
Qed.

Lemma synced_step s e : owned s -> Trace.synced s -> Trace.synced (step s e).
Proof.
  intros Ho Hs. destruct e as [now value delay | now id | now].
  - destruct (handler s) as [h|] eqn:Hh;
      [|cbn [step]; rewrite Hh; exact Hs].
    destruct (decide ((value, delay) = deps s)) as [Hd|Hd].
    + rewrite step_Render_same by exact Hd. exact Hs.
    + destruct (step_Render_reschedules s h now value delay Ho Hh Hd)
        as ([Hh' Ht'] & Hd' & _).
      split.
      * intros id t. rewrite Ht', Hd'.
        now intros [_ <-]%lookup_singleton_Some.
      * intros _ Hempty. rewrite Ht' in Hempty.
        apply (f_equal (fun m => m !! next_id s)) in Hempty.
        rewrite lookup_singleton_eq, lookup_empty in Hempty. discriminate.
  - cbn [step].
    destruct (timers s !! id) as [t|] eqn:Ht; [|exact Hs].
    destruct (due t <=? now); [|exact Hs].
    destruct Hs as [Hcap Hshow]. split.
    + intros id' t'. cbn. intros Hl.
      apply lookup_delete_Some in Hl as [_ Hl]. now apply Hcap in Hl.
    + intros _ _. cbn. unfold pending. cbn. rewrite fold_left_app. cbn.
      now apply Hcap in Ht.
  - split.
    + intros id t. destruct (step_Unmount_clears s now Ho) as (Ht & _).
      now rewrite Ht, lookup_empty.
    + cbn. congruence.
Qed.

Lemma synced_run es s : owned s -> Trace.synced s -> Trace.synced (run s es).
Proof.
  revert s; induction es as [|e es IH]; intros s Ho Hs; [exact Hs|].
  cbn [run fold_left]. apply IH; [now apply owned_step | now apply synced_step].
Qed.

(** X13: the debounced value never lags for good: every pending timer carries
    the value the source has now, and a mounted hook with no timer pending
    shows that value. *)
Theorem useDebounce_catches_up now (value : T) delay es :
  let s := run (useDebounce now value delay) es in
  (forall id t, timers s !! id = Some t -> captured t = fst (deps s))
  /\ (handler s <> None -> timers s = ∅ ->
      read (debouncedValue s) = fst (deps s)).
Proof.
  cbv zeta. apply synced_run; [apply owned_useDebounce|apply synced_useDebounce].
Qed.

End DebounceMore.

Lemma useDebounce_catches_up_witness :
  let s := useDebounce.run (useDebounce.useDebounce 0 EmptyString 5)
             (useDebounce.Render 3 "r" 5 :: typing) in
  useDebounce.handler s <> None /\ useDebounce.timers s = ∅
  /\ read (useDebounce.debouncedValue s) = "re"
  /\ fst (useDebounce.deps s) = "re".
Proof.
  cbv zeta.
  assert (Hh : useDebounce.handler
                 (useDebounce.run (useDebounce.useDebounce 0 EmptyString 5)
                    (useDebounce.Render 3 "r" 5 :: typing)) <> None)
    by (vm_compute; discriminate).
  assert (Ht : useDebounce.timers
                 (useDebounce.run (useDebounce.useDebounce 0 EmptyString 5)
                    (useDebounce.Render 3 "r" 5 :: typing)) = ∅)
    by (vm_compute; reflexivity).
  pose proof (proj2 (useDebounce_catches_up 0 EmptyString 5
                       (useDebounce.Render 3 "r" 5 :: typing)) Hh Ht) as Hshow.
  split; [exact Hh|]. split; [exact Ht|].
  assert (Hd : fst (useDebounce.deps
                      (useDebounce.run (useDebounce.useDebounce 0 EmptyString 5)
                         (useDebounce.Render 3 "r" 5 :: typing))) = "re")
    by (vm_compute; reflexivity).
  split; [|exact Hd]. rewrite <- Hd. exact Hshow.
Defined.

Lemma useDebounce_at_most_one_timer_witness :
  useDebounce.handler
    (useDebounce.run (useDebounce.useDebounce 0 "a" 5)
       [useDebounce.Render 1 "ab" 5; useDebounce.Unmount 2]) = None
  /\ useDebounce.timers
       (useDebounce.run (useDebounce.useDebounce 0 "a" 5)
          [useDebounce.Render 1 "ab" 5; useDebounce.Unmount 2]) = ∅.
Proof.
  assert (Hh : useDebounce.handler
                 (useDebounce.run (useDebounce.useDebounce 0 "a" 5)
                    [useDebounce.Render 1 "ab" 5; useDebounce.Unmount 2]) = None)
    by reflexivity.
  split; [exact Hh|].
  exact (proj2 (proj2 (useDebounce_at_most_one_timer 0 "a" 5
                         [useDebounce.Render 1 "ab" 5; useDebounce.Unmount 2]))
               Hh).
Defined.

(** ** useForm: typing into fields *)

Section FormMore.
Context {V : Type}.
Import useForm.

(** X14: typing into two different fields gives the same form in either order,
    and typing twice into one field leaves the value typed last, the
    errors being those one call leaves. *)
Theorem useForm_setValue_commutes (initialValues vals : gmap string V)
  (errs : gmap string (option string)) (f g : string) (v v' : V) :
  (f <> g ->
   events initialValues [SetValue f v; SetValue g v'] (rendered vals errs)
   = events initialValues [SetValue g v'; SetValue f v] (rendered vals errs))
  /\ events initialValues [SetValue f v; SetValue f v'] (rendered vals errs)
     = events initialValues [SetValue f v'] (rendered vals errs).
Proof.
  split.
  - intros Hne. cbn [events fold_left]. rewrite !event_SetValue.
    f_equal.
    + apply insert_insert_ne. congruence.
    + destruct (truthy (get errs f)) eqn:Hf, (truthy (get errs g)) eqn:Hg;
        rewrite ?get_insert_ne, ?Hf, ?Hg by congruence; try reflexivity.
      apply insert_insert_ne. congruence.
  - cbn [events fold_left]. rewrite !event_SetValue.
    f_equal; [apply insert_insert_eq|].
    destruct (truthy (get errs f)) eqn:Hf; [|now rewrite Hf].
    rewrite get_insert_eq. reflexivity.
Qed.

End FormMore.

Lemma useForm_setValue_commutes_witness :
  "email" <> "password"
  /\ useForm.events login_form
       [useForm.SetValue "email" "a@b.com"; useForm.SetValue "password" "s"]
       (useForm.rendered login_form login_errors)
     = useForm.events login_form
         [useForm.SetValue "password" "s"; useForm.SetValue "email" "a@b.com"]
         (useForm.rendered login_form login_errors).
Proof.
  assert (Hne : "email" <> "password") by discriminate.
  split; [exact Hne|].
  exact (proj1 (useForm_setValue_commutes login_form login_form login_errors
                  "email" "password" "a@b.com" "s") Hne).
Defined.

(** ** The page on setState with a function *)

Section AdvancedSetStateFacts.
Import AdvancedSetStateDemo.

Lemma click_counter (this : StateCell State) b :
  queue this = [] ->
  counter (read (click this b)) = counted (counter (read this)) b
  /\ queue (click this b) = [].
Proof.
  destruct this as [[c m] q]. cbn [queue]. intros ->.
  destruct b; cbn; split; try reflexivity; lia.
Qed.

(** X15: whatever was clicked before, a click on the wrong way adds one to the
    counter although it calls [setState] three times, a click on the correct
    way adds three, and a click on reset makes it zero; so [n] clicks on the
    wrong way add [n] and [n] clicks on the correct way add [3 n]. *)
Theorem setState_wrong_way_adds_one bs n :
  let this := clicks (useState initial) bs in
  let c := counter (read this) in
  counter (read (click this WrongWay)) = (c + 1)%Z
  /\ counter (read (click this CorrectWay)) = (c + 3)%Z
  /\ counter (read (click this Reset)) = 0%Z
  /\ counter (read (clicks this (repeat WrongWay n))) = (c + Z.of_nat n)%Z
  /\ counter (read (clicks this (repeat CorrectWay n)))
     = (c + 3 * Z.of_nat n)%Z.
Proof.
  cbv zeta.
  assert (Hq : forall bs (this : StateCell State),
             queue this = [] -> queue (clicks this bs) = []).
  { clear. induction bs as [|b bs IH]; intros this Hq; [exact Hq|].
    cbn [clicks fold_left]. apply IH. now apply click_counter. }
  assert (Hrep : forall b k n (this : StateCell State),
             queue this = [] ->
             (forall c, counted c b = (c + k)%Z) ->
             counter (read (clicks this (repeat b n)))
             = (counter (read this) + k * Z.of_nat n)%Z).
  { clear -Hq. intros b k n. induction n as [|n IH]; intros this Hthis Hb.
    - cbn. lia.
    - cbn [repeat clicks fold_left].
      destruct (click_counter this b Hthis) as [Hc Hq'].
      fold (clicks (click this b) (repeat b n)).
      rewrite IH by assumption. rewrite Hc, Hb. lia. }
  set (this := clicks (useState initial) bs).
  assert (Hthis : queue this = []) by (apply Hq; reflexivity).
  split; [apply (click_counter this WrongWay Hthis)|].
  split; [apply (click_counter this CorrectWay Hthis)|].
  split; [apply (click_counter this Reset Hthis)|].
  split.
  - rewrite (Hrep WrongWay 1%Z) by (assumption || reflexivity). lia.
  - rewrite (Hrep CorrectWay 3%Z) by (assumption || reflexivity). lia.
Qed.

End AdvancedSetStateFacts.

(** ** The page on useState: todos and items *)

Section UseStateFacts.
Import UseStateDemo.
Implicit Types (todos : StateCell (list Todo)) (cell : StateCell (list string)).

Lemma toggled_twice i todo : toggled i (toggled i todo) = todo.
Proof.
  unfold toggled. destruct (decide (id todo = i)) as [Hi|Hi]; cbn [id].
  - destruct (decide (id todo = i)); [|contradiction].
    destruct todo as [x t c]. cbn. now rewrite negb_involutive.
  - destruct (decide (id todo = i)); [contradiction | reflexivity].
Qed.

(** X16: toggling a todo twice gives the list back, also when both calls are
    made before the next render; one toggle keeps the number, the order, the
    ids and the texts of the todos, flips [completed] in every todo that has
    the id and leaves the others as they are. *)
Theorem toggleTodo_involutive i todos :
  pending (toggleTodo i (toggleTodo i todos)) = pending todos
  /\ length (pending (toggleTodo i todos)) = length (pending todos)
  /\ map id (pending (toggleTodo i todos)) = map id (pending todos)
  /\ map text (pending (toggleTodo i todos)) = map text (pending todos)
  /\ (forall k todo,
        pending todos !! k = Some todo ->
        pending (toggleTodo i todos) !! k
        = Some (if decide (id todo = i)
                then mkTodo (id todo) (text todo) (negb (completed todo))
                else todo)).
Proof.
  unfold toggleTodo. rewrite !pending_write. cbn [resolve].
  generalize (pending todos) as l. intros l.
  split; [|split; [|split; [|split]]].
  - rewrite map_map. rewrite <- (map_id l) at 2.
    apply map_ext. apply toggled_twice.
  - apply length_map.
  - rewrite map_map. apply map_ext. intros todo. unfold toggled.
    now destruct (decide (id todo = i)).
  - rewrite map_map. apply map_ext. intros todo. unfold toggled.
    now destruct (decide (id todo = i)).
  - intros k todo Hk.
    change (map (toggled i) l) with (toggled i <$> l).
    now rewrite list_lookup_fmap, Hk.
Qed.

Lemma toggleTodo_involutive_witness :
  let todos := useState [mkTodo 17 "milk" false; mkTodo 18 "eggs" true] in
  pending todos !! 1 = Some (mkTodo 18 "eggs" true)
  /\ pending (toggleTodo 18 todos) !! 1 = Some (mkTodo 18 "eggs" false).
Proof.
  cbv zeta. split; [reflexivity|].
  exact (proj2 (proj2 (proj2 (proj2
    (toggleTodo_involutive 18
       (useState [mkTodo 17 "milk" false; mkTodo 18 "eggs" true])))))
    1 (mkTodo 18 "eggs" true) eq_refl).
Defined.

(** X17: deleting removes every todo that has the id and no other: what is left
    are the todos with another id, in the order they had; deleting again
    changes nothing. *)
Theorem deleteTodo_removes_id i todos :
  let left := pending (deleteTodo i todos) in
  (forall todo, todo ∈ left <-> id todo <> i /\ todo ∈ pending todos)
  /\ sublist left (pending todos)
  /\ Forall (fun todo => id todo <> i) left
  /\ pending (deleteTodo i (deleteTodo i todos)) = left
  /\ (Forall (fun todo => id todo <> i) (pending todos) ->
      left = pending todos).
Proof.
  cbv zeta. unfold deleteTodo. rewrite !pending_write. cbn [resolve].
  generalize (pending todos) as l. intros l.
  split; [|split; [|split; [|split]]].
  - intros todo. exact (list_elem_of_filter (fun todo => id todo <> i) l todo).
  - apply sublist_filter.
  - apply Forall_forall. intros todo Hin.
    now apply (list_elem_of_filter (fun todo => id todo <> i)) in Hin as [Hne _].
  - rewrite list_filter_filter. apply list_filter_iff. tauto.
  - intros Hall. induction Hall as [|todo l Hne _ IH]; [reflexivity|].
    rewrite filter_cons. destruct (decide (id todo <> i)); [|contradiction].
    now rewrite IH.
Qed.

Lemma deleteTodo_removes_id_witness :
  Forall (fun todo => id todo <> 19%Z)
         (pending (useState [mkTodo 17 "milk" false; mkTodo 18 "eggs" true]))
  /\ pending (deleteTodo 19
       (useState [mkTodo 17 "milk" false; mkTodo 18 "eggs" true]))
     = [mkTodo 17 "milk" false; mkTodo 18 "eggs" true].
Proof.
  assert (Hall : Forall (fun todo => id todo <> 19%Z)
                   (pending (useState [mkTodo 17 "milk" false;
                                       mkTodo 18 "eggs" true]))).
  { repeat constructor; discriminate. }
  split; [exact Hall|].
  exact (proj2 (proj2 (proj2 (proj2
    (deleteTodo_removes_id 19
       (useState [mkTodo 17 "milk" false; mkTodo 18 "eggs" true])))) ) Hall).
Defined.

Lemma filter_index_delete {A} (l : list A) index start :
  filter_index (fun i => negb (i =? start + index)) start l = delete index l.
Proof.
  revert index start; induction l as [|x l IH]; intros index start;
    [now destruct index|].
  cbn [filter_index]. destruct index as [|index].
  - rewrite Nat.add_0_r, Nat.eqb_refl. cbn [negb].
    clear IH. cbn [delete list_delete].
    assert (Hkeep : forall (l : list A) from,
               start < from ->
               filter_index (fun i => negb (i =? start)) from l = l).
    { clear. induction l as [|y l IH]; intros from Hlt; [reflexivity|].
      cbn [filter_index]. destruct (Nat.eqb_spec from start); [lia|].
      cbn [negb]. rewrite IH by lia. reflexivity. }
    apply Hkeep. lia.
  - destruct (Nat.eqb_spec start (start + S index)); [lia|]. cbn [negb].
    cbn [delete list_delete]. f_equal.
    replace (start + S index) with (S start + index) by lia. apply IH.
Qed.

Lemma filter_index_delete0 {A} (l : list A) index :
  filter_index (fun i => negb (i =? index)) 0 l = delete index l.
Proof. exact (filter_index_delete l index 0). Qed.

(** X18: removing the item at an index takes out that item and no other, the
    items after it moving up by one; an index past the end removes nothing. *)
Theorem removeItem_removes_index index cell :
  let items := pending cell in
  let left := pending (removeItem index cell) in
  left = take index items ++ drop (S index) items
  /\ (index < length items -> length left = length items - 1)
  /\ (length items <= index -> left = items)
  /\ (forall k, k < index -> left !! k = items !! k)
  /\ (forall k, index <= k -> left !! k = items !! S k).
Proof.
  cbv zeta. unfold removeItem. rewrite pending_write. cbn [resolve].
  rewrite filter_index_delete0.
  generalize (pending cell) as items. intros items.
  split; [apply delete_take_drop|].
  split; [intros Hlt; rewrite length_delete; [lia|] |].
  { now apply lookup_lt_is_Some_2. }
  split.
  { intros Hge. rewrite delete_take_drop, take_ge, drop_ge by lia.
    apply app_nil_r. }
  split.
  - intros k Hk. now apply list_lookup_delete_lt.
  - intros k Hk. now apply list_lookup_delete_ge.
Qed.

Lemma removeItem_removes_index_witness :
  let cell := useState ["Item 1"; "Item 2"; "Item 3"] in
  1 < length (pending cell) /\ 3 <= length (pending cell)
  /\ pending (removeItem 1 cell) = ["Item 1"; "Item 3"]
  /\ length (pending (removeItem 1 cell)) = 2
  /\ pending (removeItem 3 cell) = ["Item 1"; "Item 2"; "Item 3"]
  /\ pending (removeItem 1 cell) !! 1 = Some "Item 3".
Proof.
  cbv zeta.
  pose proof (removeItem_removes_index 1
                (useState ["Item 1"; "Item 2"; "Item 3"]))
    as (Heq & Hlen & _ & _ & Hafter).
  pose proof (removeItem_removes_index 3
                (useState ["Item 1"; "Item 2"; "Item 3"]))
    as (_ & _ & Hpast & _ & _).
  cbv zeta in *.
  split; [cbn; lia|]. split; [cbn; lia|].
  split; [exact Heq|]. split; [apply Hlen; cbn; lia|].
  split; [apply Hpast; cbn; lia|].
  exact (Hafter 1 (le_n 1)).
Defined.

Lemma click_AddItem (items : list string) :
  click (mkCell items []) AddItem
  = mkCell (items ++ [item_name (length items + 1)]) [].
Proof. reflexivity. Qed.

Lemma click_Remove (items : list string) index :
  click (mkCell items []) (Remove index) = mkCell (delete index items) [].
Proof.
  unfold click, removeItem, rerender, pending. cbn.
  now rewrite filter_index_delete0.
Qed.

Lemma clicks_AddItem n (items : list string) :
  clicks (mkCell items []) (repeat AddItem n)
  = mkCell (items ++ map item_name (seq (length items + 1) n)) [].
Proof.
  revert items; induction n as [|n IH]; intros items.
  - cbn. now rewrite app_nil_r.
  - cbn [repeat clicks fold_left]. rewrite click_AddItem.
    fold (clicks (mkCell (items ++ [item_name (length items + 1)]) [])
                 (repeat AddItem n)).
    rewrite IH, length_app. cbn [length seq map].
    rewrite <- app_assoc. cbn [app].
    replace (length items + 1 + 1) with (S (length items + 1)) by lia.
    reflexivity.
Qed.

(** X19: the name of a new item is made from the number of items, so names
    repeat: after [n] items have been added to an empty list and one that
    is not the last has been removed, the next item added gets the name of
    the last item, and the list holds that name twice, side by side. *)
Theorem addItem_repeats_name n index :
  index + 1 < n ->
  let items :=
    read (clicks (useState [])
            (repeat AddItem n ++ [Remove index; AddItem])) in
  length items = n
  /\ items !! (n - 2) = Some (item_name n)
  /\ items !! (n - 1) = Some (item_name n).
Proof.
  intros Hlt. cbv zeta. unfold clicks. rewrite fold_left_app.
  fold (clicks (useState ([] : list string)) (repeat AddItem n)).
  change (useState ([] : list string)) with (mkCell ([] : list string) []).
  rewrite clicks_AddItem. cbn [app length fold_left].
  rewrite click_Remove, click_AddItem. cbn [read value].
  set (names := map item_name (seq (0 + 1) n)).
  assert (Hlen : length names = n).
  { unfold names. now rewrite length_map, length_seq. }
  assert (Hdel : length (delete index names) = n - 1).
  { rewrite length_delete; [lia|]. apply lookup_lt_is_Some_2. lia. }
  rewrite Hdel. replace (n - 1 + 1) with n by lia.
  split; [rewrite length_app, Hdel; cbn; lia|].
  split.
  - rewrite lookup_app_l by lia.
    rewrite list_lookup_delete_ge by lia.
    unfold names. change (map item_name (seq (0 + 1) n))
      with (item_name <$> seq 1 n).
    rewrite list_lookup_fmap, lookup_seq_lt by lia.
    cbn. do 2 f_equal. lia.
  - rewrite lookup_app_r by lia.
    now replace (n - 1 - length (delete index names)) with 0 by lia.
Qed.

Lemma addItem_repeats_name_witness :
  0 + 1 < 3
  /\ read (clicks (useState [])
             (repeat AddItem 3 ++ [Remove 0; AddItem])) !! 1 = Some "Item 3"
  /\ read (clicks (useState [])
             (repeat AddItem 3 ++ [Remove 0; AddItem])) !! 2 = Some "Item 3".
Proof.
  assert (Hlt : 0 + 1 < 3) by lia.
  split; [exact Hlt|].
  exact (proj2 (addItem_repeats_name 3 0 Hlt)).
Defined.

End UseStateFacts.


(** ** The timer components of the page on unmounting *)

Section TimerFacts.
Import Host.

Lemma timer_mount_ticking (first now : nat) :
  0 < first -> TimerComponent.ticking (TimerComponent.mount first now).
Proof.
  intros Hpos. split; [done|]. split; [done|].
  exists first, (now + 1000). cbn. split; [lia|]. split; [done|].
  by rewrite insert_empty.
Qed.

Lemma timer_fire_due (c : TimerComponent.Component) (id due now : nat) :
  TimerComponent.mounted c = true -> queue (TimerComponent.count c) = [] ->
  TimerComponent.timers c = {[id := due]} -> due <= now ->
  TimerComponent.step c (TimerComponent.Fire now id)
  = TimerComponent.mkComponent
      (mkCell (read (TimerComponent.count c) + 1)%Z [])
      (Some (TimerComponent.next_id c)) true
      {[TimerComponent.next_id c := now + 1000]}
      (S (TimerComponent.next_id c)).
Proof.
  intros Hm Hq Ht Hdue.
  unfold TimerComponent.step. rewrite Ht, lookup_singleton_eq.
  apply Nat.leb_le in Hdue. rewrite Hdue.
  unfold TimerComponent.callback, TimerComponent.increment,
    TimerComponent.startTimer, TimerComponent.commit. cbn.
  rewrite Hm. cbn. rewrite delete_singleton_eq, insert_empty.
  unfold rerender, pending, write. cbn. rewrite Hq. reflexivity.
Qed.

Lemma timer_fire_early (c : TimerComponent.Component) (id due now : nat) :
  TimerComponent.timers c = {[id := due]} -> now < due ->
  TimerComponent.step c (TimerComponent.Fire now id) = c.
Proof.
  intros Ht Hearly.
  unfold TimerComponent.step. rewrite Ht, lookup_singleton_eq.
  apply Nat.leb_gt in Hearly. by rewrite Hearly.
Qed.

Lemma timer_fire_other (c : TimerComponent.Component) (id i due now : nat) :
  TimerComponent.timers c = {[id := due]} -> i <> id ->
  TimerComponent.step c (TimerComponent.Fire now i) = c.
Proof.
  intros Ht Hne.
  unfold TimerComponent.step. rewrite Ht, lookup_singleton_ne; done.
Qed.

Lemma timer_step_ticking (c : TimerComponent.Component)
    (e : TimerComponent.event) :
  TimerComponent.is_fire e -> TimerComponent.ticking c ->
  TimerComponent.ticking (TimerComponent.step c e).
Proof.
  destruct e as [now i|]; [intros _|intros []].
  intros (Hm & Hq & id & due & Hpos & Hid & Ht).
  destruct (decide (i = id)) as [->|Hne].
  - destruct (le_lt_dec due now) as [Hdue|Hearly].
    + rewrite (timer_fire_due c id due now Hm Hq Ht Hdue).
      split; [done|]. split; [done|].
      exists (TimerComponent.next_id c), (now + 1000). cbn.
      split; [lia|]. done.
    + rewrite (timer_fire_early c id due now Ht Hearly).
      split; [done|]. split; [done|]. by exists id, due.
  - rewrite (timer_fire_other c id i due now Ht Hne).
    split; [done|]. split; [done|]. by exists id, due.
Qed.

Lemma timer_run_ticking (es : list TimerComponent.event) :
  forall c : TimerComponent.Component,
    Forall TimerComponent.is_fire es -> TimerComponent.ticking c ->
    TimerComponent.ticking (TimerComponent.run c es).
Proof.
  induction es as [|e es IH]; intros c Hes Hc; [exact Hc|].
  inversion Hes as [|? ? He Hes']; subst.
  apply (IH (TimerComponent.step c e) Hes').
  by apply timer_step_ticking.
Qed.

Lemma timer_step_stopped (n : Z) (c : TimerComponent.Component)
    (e : TimerComponent.event) :
  TimerComponent.stopped n c -> TimerComponent.stopped n (TimerComponent.step c e).
Proof.
  intros (Hm & Ht & Hn). destruct e as [now i|].
  - unfold TimerComponent.step. rewrite Ht, lookup_empty. by split.
  - unfold TimerComponent.step, TimerComponent.componentWillUnmount.
    destruct (TimerComponent.truthy (TimerComponent.timerId c)); cbn.
    + split; [done|]. split; [|done].
      destruct (TimerComponent.timerId c); rewrite Ht; [|done].
      apply delete_empty.
    + by split.
Qed.

Lemma timer_run_stopped (n : Z) (es : list TimerComponent.event) :
  forall c : TimerComponent.Component,
    TimerComponent.stopped n c -> TimerComponent.stopped n (TimerComponent.run c es).
Proof.
  induction es as [|e es IH]; intros c Hc; [exact Hc|].
  apply (IH (TimerComponent.step c e)). by apply timer_step_stopped.
Qed.

Lemma timer_unmount_stops (c : TimerComponent.Component) :
  TimerComponent.ticking c ->
  TimerComponent.stopped (read (TimerComponent.count c))
                (TimerComponent.step c TimerComponent.Unmount).
Proof.
  intros (Hm & Hq & id & due & Hpos & Hid & Ht).
  unfold TimerComponent.step, TimerComponent.componentWillUnmount.
  rewrite Hid. destruct id as [|id]; [lia|]. cbn.
  split; [done|]. split; [|done].
  rewrite Ht. apply delete_singleton_eq.
Qed.

(** X20: while a TimerComponent is mounted, exactly one timer is pending,
    the one its field [timerId] names. When that timer runs, at or after the
    time it is due, the count goes up by one and a new timer, due 1000 ms
    later, takes its place; run earlier, it changes nothing. *)
Theorem TimerComponent_keeps_one_timer (first now : nat)
    (es : list TimerComponent.event) :
  0 < first -> Forall TimerComponent.is_fire es ->
  let c := TimerComponent.run (TimerComponent.mount first now) es in
  exists id due,
    TimerComponent.timerId c = Some id
    /\ TimerComponent.timers c = {[id := due]}
    /\ (forall t, due <= t ->
          let c' := TimerComponent.step c (TimerComponent.Fire t id) in
          read (TimerComponent.count c')
          = (read (TimerComponent.count c) + 1)%Z
          /\ TimerComponent.timerId c' = Some (TimerComponent.next_id c)
          /\ TimerComponent.timers c'
             = {[TimerComponent.next_id c := t + 1000]})
    /\ (forall t, t < due ->
          TimerComponent.step c (TimerComponent.Fire t id) = c).
Proof.
  intros Hpos Hes c.
  destruct (timer_run_ticking es _ Hes (timer_mount_ticking first now Hpos))
    as (Hm & Hq & id & due & Hid' & Hid & Ht).
  fold c in Hm, Hq, Hid', Hid, Ht.
  exists id, due. split; [done|]. split; [done|]. split.
  - intros t Hdue c'. subst c'.
    rewrite (timer_fire_due c id due t Hm Hq Ht Hdue). by cbn.
  - intros t Hearly. exact (timer_fire_early c id due t Ht Hearly).
Qed.

Lemma TimerComponent_keeps_one_timer_witness :
  0 < 1
  /\ Forall TimerComponent.is_fire
       [TimerComponent.Fire 500 1; TimerComponent.Fire 1000 1;
        TimerComponent.Fire 2100 2]
  /\ let c := TimerComponent.run (TimerComponent.mount 1 0)
                [TimerComponent.Fire 500 1; TimerComponent.Fire 1000 1;
                 TimerComponent.Fire 2100 2] in
     exists id due,
       TimerComponent.timerId c = Some id
       /\ TimerComponent.timers c = {[id := due]}
       /\ (forall t, due <= t ->
             let c' := TimerComponent.step c (TimerComponent.Fire t id) in
             read (TimerComponent.count c')
             = (read (TimerComponent.count c) + 1)%Z
             /\ TimerComponent.timerId c' = Some (TimerComponent.next_id c)
             /\ TimerComponent.timers c'
                = {[TimerComponent.next_id c := t + 1000]})
       /\ (forall t, t < due ->
             TimerComponent.step c (TimerComponent.Fire t id) = c).
Proof.
  assert (Hes : Forall TimerComponent.is_fire
                  [TimerComponent.Fire 500 1; TimerComponent.Fire 1000 1;
                   TimerComponent.Fire 2100 2])
    by (repeat constructor).
  split; [lia|]. split; [exact Hes|].
  exact (TimerComponent_keeps_one_timer 1 0 _ (Nat.lt_0_succ 0) Hes).
Defined.

(** X21: unmounting a TimerComponent clears its pending timer: whatever
    happens afterwards, no timer of the component is pending and its count
    stays what it was. *)
Theorem TimerComponent_unmount_stops (first now : nat)
    (es later : list TimerComponent.event) :
  0 < first -> Forall TimerComponent.is_fire es ->
  let c := TimerComponent.run (TimerComponent.mount first now) es in
  let c' := TimerComponent.run c (TimerComponent.Unmount :: later) in
  TimerComponent.timers c' = ∅
  /\ read (TimerComponent.count c') = read (TimerComponent.count c)
  /\ TimerComponent.mounted c' = false.
Proof.
  intros Hpos Hes c c'.
  pose proof (timer_run_ticking es _ Hes (timer_mount_ticking first now Hpos))
    as Hc.
  fold c in Hc.
  destruct (timer_run_stopped _ later _ (timer_unmount_stops c Hc))
    as (Hm & Ht & Hn).
  by split.
Qed.

Lemma TimerComponent_unmount_stops_witness :
  0 < 1
  /\ Forall TimerComponent.is_fire [TimerComponent.Fire 1000 1]
  /\ let c := TimerComponent.run (TimerComponent.mount 1 0)
                [TimerComponent.Fire 1000 1] in
     let c' := TimerComponent.run c
                 [TimerComponent.Unmount; TimerComponent.Fire 2000 2] in
     TimerComponent.timers c' = ∅
     /\ read (TimerComponent.count c') = read (TimerComponent.count c)
     /\ TimerComponent.mounted c' = false.
Proof.
  assert (Hes : Forall TimerComponent.is_fire [TimerComponent.Fire 1000 1])
    by (repeat constructor).
  split; [lia|]. split; [exact Hes|].
  exact (TimerComponent_unmount_stops 1 0 _ [TimerComponent.Fire 2000 2]
           (Nat.lt_0_succ 0) Hes).
Defined.

Lemma leaky_mount_stage (first now : nat) :
  LeakyComponent.stage (LeakyComponent.mount first now).
Proof.
  split; [done|]. left. split; [done|].
  exists first, (now + 1000). cbn. split; [done|].
  by rewrite insert_empty.
Qed.

Lemma leaky_step_stage (c : LeakyComponent.Component)
    (e : LeakyComponent.event) :
  LeakyComponent.stage c -> LeakyComponent.stage (LeakyComponent.step c e).
Proof.
  destruct c as [[v q] tid m ts nid]. unfold LeakyComponent.stage. cbn.
  intros [-> H]. destruct e as [now i|]; [|by split].
  unfold LeakyComponent.step. cbn.
  destruct H as [(-> & id & due & -> & ->)|[(Hv & id & due & ->)|(Hv & ->)]].
  - destruct (decide (i = id)) as [->|Hne].
    + rewrite lookup_singleton_eq.
      destruct (due <=? now); cbn.
      * unfold LeakyComponent.increment. cbn.
        destruct m, id as [|id]; cbn; rewrite delete_singleton_eq;
          unfold pending, read; cbn; (split; [done|]); right.
        all: try (right; split; [lia|done]).
        all: left; split; [lia|]; exists nid, (now + 1000);
          by rewrite insert_empty.
      * split; [done|]. left. split; [done|]. by exists id, due.
    + rewrite lookup_singleton_ne by done. cbn.
      split; [done|]. left. split; [done|]. by exists id, due.
  - destruct (decide (i = id)) as [->|Hne].
    + rewrite lookup_singleton_eq.
      destruct (due <=? now); cbn.
      * unfold LeakyComponent.increment. cbn.
        destruct m; cbn; rewrite delete_singleton_eq;
          unfold pending, read in *; cbn in *; (split; [done|]);
          right; right; (split; [lia|done]).
      * split; [done|]. right. left. split; [done|]. by exists id, due.
    + rewrite lookup_singleton_ne by done. cbn.
      split; [done|]. right. left. split; [done|]. by exists id, due.
  - rewrite lookup_empty. cbn. split; [done|]. right. right. by split.
Qed.

Lemma leaky_run_stage (es : list LeakyComponent.event) :
  forall c : LeakyComponent.Component,
    LeakyComponent.stage c -> LeakyComponent.stage (LeakyComponent.run c es).
Proof.
  induction es as [|e es IH]; intros c Hc; [exact Hc|].
  apply (IH (LeakyComponent.step c e)). by apply leaky_step_stage.
Qed.

(** X22: whatever timers run and whenever it is unmounted, a LeakyComponent
    counts to two at most, and at most one of its timers is pending at a
    time. *)
Theorem LeakyComponent_counts_to_two (first now : nat)
    (es : list LeakyComponent.event) :
  let c := LeakyComponent.run (LeakyComponent.mount first now) es in
  (0 <= read (LeakyComponent.count c) <= 2)%Z
  /\ size (LeakyComponent.timers c) <= 1.
Proof.
  intros c.
  destruct (leaky_run_stage es _ (leaky_mount_stage first now))
    as [_ [(Hv & id & due & _ & Ht)|[(Hv & id & due & Ht)|(Hv & Ht)]]];
    fold c in Hv, Ht; rewrite Ht.
  - rewrite Hv, map_size_singleton. lia.
  - rewrite map_size_singleton. lia.
  - rewrite map_size_empty. lia.
Qed.

(** X23: unmounting a LeakyComponent clears nothing. Its timer still runs
    when it is due and, although the count no longer changes, sets the
    second timer; a TimerComponent unmounted at the same moment leaves
    nothing behind. *)
Theorem LeakyComponent_timer_outlives_component (first now t : nat) :
  0 < first -> now + 1000 <= t ->
  let c := LeakyComponent.run (LeakyComponent.mount first now)
             [LeakyComponent.Unmount; LeakyComponent.Fire t first] in
  LeakyComponent.timers
    (LeakyComponent.run (LeakyComponent.mount first now)
       [LeakyComponent.Unmount])
  = {[first := (now + 1000, LeakyComponent.Outer)]}
  /\ LeakyComponent.timers c = {[S first := (t + 1000, LeakyComponent.Inner)]}
  /\ read (LeakyComponent.count c) = 0%Z
  /\ TimerComponent.timers
       (TimerComponent.run (TimerComponent.mount first now)
          [TimerComponent.Unmount; TimerComponent.Fire t first])
     = ∅.
Proof.
  intros Hpos Hdue c. subst c. cbn.
  rewrite insert_empty. split; [done|].
  rewrite lookup_singleton_eq.
  apply Nat.leb_le in Hdue. rewrite Hdue. cbn.
  destruct first as [|first]; [lia|]. cbn.
  rewrite delete_singleton_eq, insert_empty. split; [done|]. split; [done|].
  rewrite insert_empty, delete_singleton_eq. by rewrite lookup_empty.
Qed.

Lemma LeakyComponent_timer_outlives_component_witness :
  0 < 1 /\ 0 + 1000 <= 1500
  /\ LeakyComponent.timers
       (LeakyComponent.run (LeakyComponent.mount 1 0)
          [LeakyComponent.Unmount; LeakyComponent.Fire 1500 1])
     = {[2 := (2500, LeakyComponent.Inner)]}.
Proof.
  assert (Hdue : 0 + 1000 <= 1500) by lia.
  split; [lia|]. split; [exact Hdue|].
  exact (proj1 (proj2 (LeakyComponent_timer_outlives_component 1 0 1500
                         (Nat.lt_0_succ 0) Hdue))).
Defined.

End TimerFacts.
